(** * Equalizer: the blocking queue [eq::base::MTQueue] and the network
      controller [eqNet::priv::Network].

    The queue is embedded from [src/lib/base/mtQueue.h]: every method is a
    program in a small state monad whose primitives are the pthread calls and
    the [std::deque] calls of the source.  The controller is embedded from
    [src/net/networkPriv.h], which declares it; the bodies of its member
    functions are not part of the sources and are modelled from the
    specification where a statement needs them. *)

From stdpp Require Import gmap list strings.
From Stdlib Require Import ZArith.

(** ** The blocking queue *)

Module MTQueue.

(** [template< typename T > const T MTQueue<T>::NONE = 0;] needs a type whose
    values can be initialised from the literal [0]: the integer types and the
    pointer types. *)
Class ZeroInit (T : Type) : Type := zero_value : T.

#[export] Instance Z_ZeroInit : ZeroInit Z := 0%Z.
#[export] Instance N_ZeroInit : ZeroInit N := 0%N.

(** A pointer is null or the address of an object. *)
Inductive Ptr : Type :=
| null
| addr (a : positive).

#[export] Instance Ptr_ZeroInit : ZeroInit Ptr := null.

(** The two queue objects a member function can touch: [*this] and, in the
    copy constructor and the assignment, the argument [from]. *)
Inductive Obj : Type := This | From.

#[export] Instance Obj_eq_dec : EqDecision Obj.
Proof. solve_decision. Defined.

(** What a member function does to the synchronisation objects and to the
    [_queue] members, in program order.  [EvProbe] is a call of
    [_queue.empty()], [EvRead] reads elements, [EvWrite] changes the deque. *)
Inductive Event : Type :=
| EvLock (o : Obj)
| EvUnlock (o : Obj)
| EvSignal (o : Obj)
| EvWait (o : Obj)
| EvTimedWait (o : Obj)
| EvProbe (o : Obj)
| EvRead (o : Obj)
| EvWrite (o : Obj).

#[export] Instance Event_eq_dec : EqDecision Event.
Proof. solve_decision. Defined.

(** The lock discipline of the class: the elements of a [_queue] are read and
    the deque is changed only while the mutex of its object is held.
    [held] is the set of mutexes the running thread owns. *)
Fixpoint guarded (held : list Obj) (tr : list Event) : bool :=
  match tr with
  | [] => true
  | EvLock o :: tr' => guarded (o :: held) tr'
  | EvUnlock o :: tr' => guarded (filter (λ o', o' ≠ o) held) tr'
  | EvRead o :: tr' => bool_decide (o ∈ held) && guarded held tr'
  | EvWrite o :: tr' => bool_decide (o ∈ held) && guarded held tr'
  | EvWait o :: tr' => bool_decide (o ∈ held) && guarded held tr'
  | EvTimedWait o :: tr' => bool_decide (o ∈ held) && guarded held tr'
  | EvSignal _ :: tr' => guarded held tr'
  | EvProbe _ :: tr' => guarded held tr'
  end.

(** The mutexes still owned after a trace. *)
Fixpoint owned (held : list Obj) (tr : list Event) : list Obj :=
  match tr with
  | [] => held
  | EvLock o :: tr' => owned (o :: held) tr'
  | EvUnlock o :: tr' => owned (filter (λ o', o' ≠ o) held) tr'
  | _ :: tr' => owned held tr'
  end.

(** The number of times the deque of [o] is changed in a trace. *)
Definition writes (o : Obj) (tr : list Event) : nat :=
  length (filter (λ e, e = EvWrite o) tr).

(** The events of [k] rounds of the loop of [pop]. *)
Fixpoint waits (k : nat) : list Event :=
  match k with
  | O => []
  | S k' => EvProbe This :: EvWait This :: waits k'
  end.

(** [timeb] as [ftime] fills it, seconds since the epoch and milliseconds,
    and the [timespec] handed to the timed wait.  [time_t] and [long] are
    64 bits wide; for a clock below [2 ^ 33] seconds no operation of
    [deadline] leaves that range. *)
Record timeb : Type := mkTimeb {
  time : Z;
  millitm : Z
}.

Record timespec : Type := mkTimespec {
  tv_sec : Z;
  tv_nsec : Z
}.

(** [const timespec ts =
       { static_cast<int>( timeout / 1000 ) + tb.time,
         (timeout - ts.tv_sec*1000) * 1000000 + tb.millitm * 1000000 };]
    The second initialiser reads [ts.tv_sec], which the first one has set to
    the seconds of the deadline since the epoch. *)
Definition deadline (timeout : N) (tb : timeb) : timespec :=
  let sec := (Z.of_N timeout / 1000 + time tb)%Z in
  mkTimespec sec
    ((Z.of_N timeout - sec * 1000) * 1000000 + millitm tb * 1000000)%Z.

(** The nanoseconds of a [timespec] the timed wait accepts. *)
Definition valid_timespec (ts : timespec) : Prop :=
  (0 ≤ tv_nsec ts < 1000000000)%Z.

#[export] Instance valid_timespec_dec (ts : timespec) : Decision (valid_timespec ts).
Proof. unfold valid_timespec. apply _. Defined.

(** The number of times the condition of [o] is signalled in a trace. *)
Definition signals (o : Obj) (tr : list Event) : nat :=
  length (filter (λ e, e = EvSignal o) tr).

Section Queue.

Context {T : Type} {T_zero : ZeroInit T}.

(** [static const T NONE], defined as [0]. *)
Definition NONE : T := zero_value.

(** *** std::deque<T>, front at the head of the list *)

Definition push_back (x : T) (q : list T) : list T := q ++ [x].
Definition push_front (x : T) (q : list T) : list T := x :: q.
Definition insert_end (xs : list T) (q : list T) : list T := q ++ xs.
Definition pop_front (q : list T) : list T := tail q.

(** *** Other threads

    A call another thread completes on the same queue while this thread does
    not own the mutex: a push, a vector push, a front push, a pop of any
    kind that finds an element, or an assignment. *)
Inductive Action : Type :=
| ActPush (x : T)
| ActPushVector (xs : list T)
| ActPushFront (x : T)
| ActPop
| ActAssign (xs : list T).

Definition interfere (q : list T) (a : Action) : list T :=
  match a with
  | ActPush x => push_back x q
  | ActPushVector xs => insert_end xs q
  | ActPushFront x => push_front x q
  | ActPop => pop_front q
  | ActAssign xs => xs
  end.

Definition interfere_all (q : list T) (r : list Action) : list T :=
  foldl interfere q r.

(** The deque after the first wake-ups of [rs] have happened, round by
    round. *)
Definition after (rs : list (list Action)) (q : list T) : list T :=
  foldl interfere_all q rs.

(** *** The state a member function runs in

    [_queue] is the member of [*this].  [contention] is what other threads do
    to the queue before this thread gets the mutex; [wakeups] lists, for each
    return of a condition wait still to come, what the other threads did
    while this thread slept (nothing, for a spurious wake-up or a time-out);
    when no wake-up is left, a thread in [pthread_cond_wait] stays
    suspended.  [trace] records the events of this thread. *)
Record St : Type := mkSt {
  _queue : list T;
  contention : list Action;
  wakeups : list (list Action);
  trace : list Event
}.

Inductive Res (A : Type) : Type :=
| Ret (a : A) (s : St)
| Suspended (s : St)
| Undefined.

Arguments Ret {A} a s.
Arguments Suspended {A} s.
Arguments Undefined {A}.

Definition M (A : Type) : Type := St → Res A.

Definition ret {A} (a : A) : M A := λ s, Ret a s.

Definition bind {A B} (m : M A) (k : A → M B) : M B :=
  λ s, match m s with
       | Ret a s' => k a s'
       | Suspended s' => Suspended s'
       | Undefined => Undefined
       end.

Notation "x <- c1 ;; c2" := (bind c1 (λ x, c2))
  (at level 100, c1 at next level, right associativity).
Notation "c1 ;; c2" := (bind c1 (λ _, c2))
  (at level 100, right associativity).

Definition emit (e : Event) (s : St) : St :=
  mkSt (_queue s) (contention s) (wakeups s) (trace s ++ [e]).

Definition set_queue (q : list T) (s : St) : St :=
  mkSt q (contention s) (wakeups s) (trace s).

(** The deque when this thread gets the mutex, and when a timed wait that
    sleeps returns. *)
Definition at_lock (s : St) : list T :=
  interfere_all (_queue s) (contention s).

Definition at_deadline (s : St) : list T :=
  match wakeups s with
  | [] => at_lock s
  | r :: _ => interfere_all (at_lock s) r
  end.

(** *** pthread primitives *)

(** Taking the mutex of [*this] lets the calls of the other threads that
    were ahead of this one complete first. *)
Definition pthread_mutex_lock (o : Obj) : M unit :=
  λ s, match o with
       | This =>
           Ret tt (mkSt (interfere_all (_queue s) (contention s)) []
                        (wakeups s) (trace s ++ [EvLock This]))
       | From => Ret tt (emit (EvLock From) s)
       end.

Definition pthread_mutex_unlock (o : Obj) : M unit :=
  λ s, Ret tt (emit (EvUnlock o) s).

Definition pthread_cond_signal (o : Obj) : M unit :=
  λ s, Ret tt (emit (EvSignal o) s).

(** The wait releases the mutex, sleeps, and returns with the mutex held
    again once it is woken. *)
Definition pthread_cond_wait : M unit :=
  λ s, match wakeups s with
       | [] => Suspended (emit (EvWait This) s)
       | r :: rs =>
           Ret tt (mkSt (interfere_all (_queue s) r) (contention s) rs
                        (trace s ++ [EvWait This]))
       end.

(** A timed wait with a deadline it accepts releases the mutex and returns
    at the deadline at the latest, with the mutex held again. *)
Definition timedwait_sleeps : M unit :=
  λ s, match wakeups s with
       | [] => Ret tt (emit (EvTimedWait This) s)
       | r :: rs =>
           Ret tt (mkSt (interfere_all (_queue s) r) (contention s) rs
                        (trace s ++ [EvTimedWait This]))
       end.

(** With nanoseconds below zero or from [1000000000] on, the call fails with
    [EINVAL] at once: the mutex is not released and no other thread gets at
    the queue.  The member function ignores the error code. *)
Definition timedwait_fails : M unit :=
  λ s, Ret tt (emit (EvTimedWait This) s).

Definition pthread_cond_timedwait (ts : timespec) : M unit :=
  if decide (valid_timespec ts) then timedwait_sleeps else timedwait_fails.

(** *** std::deque calls on [_queue] *)

Definition queue_empty : M bool :=
  λ s, Ret (match _queue s with [] => true | _ => false end)
           (emit (EvProbe This) s).

(** [front()], [back()] and [pop_front()] of an empty deque are undefined. *)
Definition queue_front : M T :=
  λ s, match _queue s with
       | [] => Undefined
       | x :: _ => Ret x (emit (EvRead This) s)
       end.

Definition queue_back : M T :=
  λ s, match last (_queue s) with
       | None => Undefined
       | Some x => Ret x (emit (EvRead This) s)
       end.

Definition queue_pop_front : M unit :=
  λ s, match _queue s with
       | [] => Undefined
       | _ :: q => Ret tt (emit (EvWrite This) (set_queue q s))
       end.

Definition queue_push_back (x : T) : M unit :=
  λ s, Ret tt (emit (EvWrite This) (set_queue (push_back x (_queue s)) s)).

Definition queue_push_front (x : T) : M unit :=
  λ s, Ret tt (emit (EvWrite This) (set_queue (push_front x (_queue s)) s)).

Definition queue_insert_end (xs : list T) : M unit :=
  λ s, Ret tt (emit (EvWrite This) (set_queue (insert_end xs (_queue s)) s)).

(** [_queue = from._queue]: the elements of the source are read, the deque of
    [*this] is replaced. *)
Definition queue_assign (from : list T) : M unit :=
  λ s, Ret tt (emit (EvWrite This) (emit (EvRead From) (set_queue from s))).

(** [while( _queue.empty( )) pthread_cond_wait( &_data->cond, &_data->mutex );]
    Every iteration uses up one wake-up, so the loop runs at most once more
    than there are wake-ups: with that bound as [fuel] the last branch is
    never taken (see [wait_loop_fuel]). *)
Fixpoint wait_loop (fuel : nat) : M unit :=
  empty <- queue_empty ;;
  if empty : bool then
    pthread_cond_wait ;;
    match fuel with
    | O => λ s, Suspended s
    | S fuel' => wait_loop fuel'
    end
  else ret tt.

Definition wait_while_empty : M unit :=
  λ s, wait_loop (length (wakeups s)) s.

(** *** The member functions *)

(** [MTQueue<T>::MTQueue()]: an empty deque. *)
Definition MTQueue_new : list T := [].

(** [MTQueue<T>::MTQueue( const MTQueue<T>& from )]: [_queue( from._queue )]
    in the initialiser list; [_init()] creates the mutex and the condition
    of the new object and takes neither. *)
Definition MTQueue_copy (from : list T) : list T * list Event :=
  (from, [EvRead From; EvWrite This]).

(** [operator =] *)
Definition assign (from : list T) : M unit :=
  pthread_mutex_lock This ;;
  queue_assign from ;;
  pthread_cond_signal This ;;
  pthread_mutex_unlock This.

(** [T pop()] *)
Definition pop : M T :=
  pthread_mutex_lock This ;;
  wait_while_empty ;;
  element <- queue_front ;;
  queue_pop_front ;;
  pthread_mutex_unlock This ;;
  ret element.

(** [T pop( const uint32_t timeout )]: [tb] is what [ftime] reads from the
    clock; the deadline computed from it is passed to the timed wait, which
    is called once. *)
Definition pop_timeout (timeout : N) (tb : timeb) : M T :=
  let ts := deadline timeout tb in
  pthread_mutex_lock This ;;
  pthread_cond_timedwait ts ;;
  empty <- queue_empty ;;
  if empty : bool then
    pthread_mutex_unlock This ;;
    ret NONE
  else
    element <- queue_front ;;
    queue_pop_front ;;
    pthread_mutex_unlock This ;;
    ret element.

(** [T tryPop()] *)
Definition tryPop : M T :=
  empty <- queue_empty ;;
  if empty : bool then ret NONE
  else
    pthread_mutex_lock This ;;
    empty' <- queue_empty ;;
    if empty' : bool then
      pthread_mutex_unlock This ;;
      ret NONE
    else
      element <- queue_front ;;
      queue_pop_front ;;
      pthread_mutex_unlock This ;;
      ret element.

(** [T front() const] *)
Definition front : M T :=
  pthread_mutex_lock This ;;
  empty <- queue_empty ;;
  if empty : bool then
    pthread_mutex_unlock This ;;
    ret NONE
  else
    element <- queue_front ;;
    pthread_mutex_unlock This ;;
    ret element.

(** [T back() const] *)
Definition back : M T :=
  pthread_mutex_lock This ;;
  empty <- queue_empty ;;
  if empty : bool then
    pthread_mutex_unlock This ;;
    ret NONE
  else
    element <- queue_back ;;
    pthread_mutex_unlock This ;;
    ret element.

(** [void push( const T& element )] *)
Definition push (element : T) : M unit :=
  pthread_mutex_lock This ;;
  queue_push_back element ;;
  pthread_cond_signal This ;;
  pthread_mutex_unlock This.

(** [void push( const std::vector< T >& elements )] *)
Definition push_vector (elements : list T) : M unit :=
  pthread_mutex_lock This ;;
  queue_insert_end elements ;;
  pthread_cond_signal This ;;
  pthread_mutex_unlock This.

(** [void pushFront( const T& element )] *)
Definition pushFront (element : T) : M unit :=
  pthread_mutex_lock This ;;
  queue_push_front element ;;
  pthread_cond_signal This ;;
  pthread_mutex_unlock This.

(** [bool isEmpty() const] and [size_t getSize() const] *)
Definition isEmpty (s : St) : bool :=
  match _queue s with [] => true | _ => false end.

Definition getSize (s : St) : nat := length (_queue s).

(** *** Several calls in a row *)

(** [elements] pushed one by one with [push( const T& )], in their order. *)
Fixpoint push_each (elements : list T) : M unit :=
  match elements with
  | [] => ret tt
  | element :: rest => push element ;; push_each rest
  end.

Inductive Op : Type :=
| OpPush (x : T)
| OpPushFront (x : T)
| OpPop.

(** The calls of [ops] made one after the other on one queue; the result is
    what the pops returned, in order, up to the first call that does not
    return. *)
Fixpoint run (ops : list Op) (s : St) : list T :=
  match ops with
  | [] => []
  | OpPush x :: ops' =>
      match push x s with
      | Ret _ s' => run ops' s'
      | _ => []
      end
  | OpPushFront x :: ops' =>
      match pushFront x s with
      | Ret _ s' => run ops' s'
      | _ => []
      end
  | OpPop :: ops' =>
      match pop s with
      | Ret v s' => v :: run ops' s'
      | _ => []
      end
  end.

(** A queue nobody else uses, as the default constructor leaves it. *)
Definition fresh : St := mkSt MTQueue_new [] [] [].

(** *** The order the specification asks for

    Sections 3 and 5: entries pushed to the front are served before every
    entry pushed to the back, the most recent one first; entries pushed to
    the back are served oldest first.  [urgent] holds the former, most
    recent first, [fifo] the latter, oldest first. *)
Record FrontPriority : Type := mkFrontPriority {
  urgent : list T;
  fifo : list T
}.

Definition fp_push (x : T) (p : FrontPriority) : FrontPriority :=
  mkFrontPriority (urgent p) (fifo p ++ [x]).

Definition fp_pushFront (x : T) (p : FrontPriority) : FrontPriority :=
  mkFrontPriority (x :: urgent p) (fifo p).

(** [None]: nothing to serve, the consumer waits. *)
Definition fp_pop (p : FrontPriority) : option (T * FrontPriority) :=
  match urgent p with
  | u :: us => Some (u, mkFrontPriority us (fifo p))
  | [] =>
      match fifo p with
      | f :: fs => Some (f, mkFrontPriority [] fs)
      | [] => None
      end
  end.

Fixpoint fp_run (ops : list Op) (p : FrontPriority) : list T :=
  match ops with
  | [] => []
  | OpPush x :: ops' => fp_run ops' (fp_push x p)
  | OpPushFront x :: ops' => fp_run ops' (fp_pushFront x p)
  | OpPop :: ops' =>
      match fp_pop p with
      | Some (v, p') => v :: fp_run ops' p'
      | None => []
      end
  end.

(** *** More calls in a row *)

(** [n] calls of [pop()], with the values they return. *)
Fixpoint pops (n : nat) : M (list T) :=
  match n with
  | O => ret []
  | S n' => v <- pop ;; vs <- pops n' ;; ret (v :: vs)
  end.

(** The arguments of the [pushFront] calls and of the [push] calls of a
    sequence, each in the order of the calls. *)
Definition fronts (ops : list Op) : list T :=
  omap (λ o, match o with OpPushFront x => Some x | _ => None end) ops.

Definition backs (ops : list Op) : list T :=
  omap (λ o, match o with OpPush x => Some x | _ => None end) ops.

Definition is_producer (o : Op) : bool :=
  match o with
  | OpPop => false
  | _ => true
  end.

(** The elements a call of another thread brings into the deque. *)
Definition action_elements (a : Action) : list T :=
  match a with
  | ActPush x => [x]
  | ActPushVector xs => xs
  | ActPushFront x => [x]
  | ActPop => []
  | ActAssign xs => xs
  end.

(** Everything that is put into the queue during a call: what it holds at
    the call and what the other threads bring. *)
Definition supplied (s : St) : list T :=
  _queue s ++
  concat (action_elements <$> (contention s ++ concat (wakeups s))).

End Queue.

Arguments Ret {T A} a s.
Arguments Suspended {T A} s.
Arguments Undefined {T A}.

End MTQueue.

(** ** The network controller *)

Module Network.

(** [enum State] *)
Inductive State : Type :=
| STATE_STOPPED
| STATE_STARTING
| STATE_RUNNING.

(** [enum NodeState] *)
Inductive NodeState : Type :=
| NODE_STOPPED
| NODE_INITIALIZED
| NODE_LAUNCHED
| NODE_RUNNING.

(** [eqNet::NetworkProtocol], with the enumerators [operator <<] tests. *)
Inductive NetworkProtocol : Type :=
| PROTO_TCPIP
| PROTO_PIPE
| PROTO_MPI.

#[export] Instance State_eq_dec : EqDecision State.
Proof. solve_decision. Defined.

#[export] Instance NodeState_eq_dec : EqDecision NodeState.
Proof. solve_decision. Defined.

#[export] Instance NetworkProtocol_eq_dec : EqDecision NetworkProtocol.
Proof. solve_decision. Defined.

(** A [Node*] key of the two hashes is the address of the node. *)
Abbreviation Node := positive.

(** Modelled from the spec: [eqNet::ConnectionDescription] is declared in
    [network.h], which is not part of the sources.  It is the immutable value
    of section 3: the transport kind, the address of the peer and the
    template of its remote launch command. *)
Record ConnectionDescription : Type := mkConnectionDescription {
  protocol : NetworkProtocol;
  hostname : string;
  launchCommand : string
}.

#[export] Instance ConnectionDescription_eq_dec : EqDecision ConnectionDescription.
Proof. solve_decision. Defined.

(** Modelled from the spec: [NetworkPacket] is only forward-declared.  It
    carries the command identifier and, for the add-node command, the
    announced node and its description. *)
Record NetworkPacket : Type := mkNetworkPacket {
  command : Z;
  nodeID : Node;
  connectionDescription : ConnectionDescription
}.

(** The member functions a slot of [_cmdHandler] can be bound to; the class
    declares one, [_cmdNetworkAddNode]. *)
Inductive Handler : Type :=
| CmdNetworkAddNode.

(** What the controller reports on its error stream. *)
Inductive Diagnostic : Type :=
| ConflictingDescription (node : Node)
| CommandOutOfRange (cmd : Z)
| CommandNotRegistered (cmd : Z).

(** The data members of [Network] the operations below use.  A slot of
    [_cmdHandler] holds a member-function pointer or null. *)
Record Network : Type := mkNetwork {
  _state : State;
  _protocol : NetworkProtocol;
  _descriptions : gmap positive ConnectionDescription;
  _nodeStates : gmap positive NodeState;
  _cmdHandler : list (option Handler)
}.

Definition set_state (st : State) (net : Network) : Network :=
  mkNetwork st (_protocol net) (_descriptions net) (_nodeStates net)
            (_cmdHandler net).

Definition set_nodeState (node : Node) (st : NodeState) (net : Network) : Network :=
  mkNetwork (_state net) (_protocol net) (_descriptions net)
            (<[node := st]> (_nodeStates net)) (_cmdHandler net).

(** Modelled from the spec: the body of [Network::addNode] is not part of
    the sources.  Section 4.1: the peer is registered with state [STOPPED];
    a node already registered with an identical description is left as it
    is; a different description for a registered node is rejected and
    reported, nothing is overwritten. *)
Definition addNode (node : Node) (connection : ConnectionDescription)
    (net : Network) : Network * list Diagnostic :=
  match _descriptions net !! node with
  | None =>
      (mkNetwork (_state net) (_protocol net)
                 (<[node := connection]> (_descriptions net))
                 (<[node := NODE_STOPPED]> (_nodeStates net))
                 (_cmdHandler net), [])
  | Some known =>
      if decide (known = connection) then (net, [])
      else (net, [ConflictingDescription node])
  end.

(** Modelled from the spec: the body of [Network::_cmdNetworkAddNode] is not
    part of the sources.  Section 4.1: the announced node is merged into the
    membership view with the rule of [addNode]. *)
Definition _cmdNetworkAddNode (packet : NetworkPacket) (net : Network)
    : Network * list Diagnostic :=
  addNode (nodeID packet) (connectionDescription packet) net.

Definition invoke (h : Handler) (packet : NetworkPacket) (net : Network)
    : Network * list Diagnostic :=
  match h with
  | CmdNetworkAddNode => _cmdNetworkAddNode packet net
  end.

(** Modelled from the spec: the body of [Network::setStarted( Node* )] is
    not part of the sources.  Section 4.1: a registered node is marked
    [RUNNING] at once, whatever its state was. *)
Definition setStarted (node : Node) (net : Network) : Network :=
  match _nodeStates net !! node with
  | None => net
  | Some _ => set_nodeState node NODE_RUNNING net
  end.

(** Reading element [i] of a C array; outside the array the access is
    undefined, which is [None] here. *)
Definition array_at {A} (table : list A) (i : Z) : option A :=
  if decide (0 ≤ i)%Z then table !! Z.to_nat i else None.

Inductive Outcome : Type :=
| Completed (net : Network) (reported : list Diagnostic)
| OutOfBounds.

Section Dispatch.

(** [CMD_NETWORK_ALL] closes the command enumeration of [commands.h], which
    is not part of the sources; [_cmdHandler] has that many slots. *)
Variable CMD_NETWORK_ALL : nat.

Definition table_sized (net : Network) : Prop :=
  length (_cmdHandler net) = CMD_NETWORK_ALL.

(** Modelled from the spec: the body of [Network::handlePacket] is not part
    of the sources.  Sections 4.1 and 6: the command is looked up in the
    table; an identifier outside [[0, CMD_NETWORK_ALL)] or a slot without
    handler is a protocol error, reported, and the packet is dropped. *)
Definition handlePacket (packet : NetworkPacket) (net : Network) : Outcome :=
  let cmd := command packet in
  if decide (0 ≤ cmd < Z.of_nat CMD_NETWORK_ALL)%Z then
    match array_at (_cmdHandler net) cmd with
    | None => OutOfBounds
    | Some None => Completed net [CommandNotRegistered cmd]
    | Some (Some h) =>
        let '(net', reported) := invoke h packet net in
        Completed net' reported
    end
  else Completed net [CommandOutOfRange cmd].

End Dispatch.

Section Lifecycle.

(** [startNode] is pure virtual: the transport decides whether the remote
    peer can be reached and completes the handshake. *)
Variable handshake : Node → bool.

(** Modelled from the spec: [startNode] has no body in the sources.  Section
    4.1: on a successful handshake the node becomes [RUNNING]; a failure has
    no side effect. *)
Definition startNode (node : Node) (net : Network) : bool * Network :=
  if handshake node then (true, set_nodeState node NODE_RUNNING net)
  else (false, net).

(** Modelled from the spec: [stop] has no body in the sources.  Section
    4.1: it stops every node that is running and brings the controller back
    to [STOPPED]. *)
Definition stopped (st : NodeState) : NodeState :=
  if decide (st = NODE_RUNNING) then NODE_STOPPED else st.

Definition stop (net : Network) : Network :=
  mkNetwork STATE_STOPPED (_protocol net) (_descriptions net)
            (stopped <$> _nodeStates net) (_cmdHandler net).

(** The registered peers that are not [RUNNING] yet. *)
Definition pending (net : Network) : list Node :=
  (map_to_list (filter (λ kv, kv.2 ≠ NODE_RUNNING) (_nodeStates net))).*1.

(** Modelled from the spec: the loop of [start] over the peers still to be
    started.  Sections 4.1 and 8: when a peer fails, the peers already
    started are stopped again and no node is left [RUNNING]: the network is
    stopped. *)
Fixpoint start_nodes (todo : list Node) (net : Network) : bool * Network :=
  match todo with
  | [] => (true, set_state STATE_RUNNING net)
  | node :: todo' =>
      let '(ok, net') := startNode node net in
      if ok then start_nodes todo' net'
      else (false, stop net')
  end.

(** Modelled from the spec: [start] has no body in the sources.  Section
    4.1: the controller becomes [STARTING], [startNode] is called for every
    registered peer not already [RUNNING]; when all succeed the controller
    is [RUNNING]; when one fails the controller does not become [RUNNING]
    and the nodes are stopped. *)
Definition start (net : Network) : bool * Network :=
  start_nodes (pending net) (set_state STATE_STARTING net).

End Lifecycle.

(** *** A small cluster

    A controller with a table of two slots, the first bound to the add-node
    handler.  Node [1] is the server, already running and marked so with
    [setStarted]; node [2] is a render node that is registered and
    stopped. *)
Definition server_description : ConnectionDescription :=
  mkConnectionDescription PROTO_TCPIP "server" "ssh server eqServer".

Definition render_description : ConnectionDescription :=
  mkConnectionDescription PROTO_TCPIP "render" "ssh render eqRender".

Definition unconfigured : Network :=
  mkNetwork STATE_STOPPED PROTO_TCPIP ∅ ∅ [Some CmdNetworkAddNode; None].

Definition with_server : Network :=
  setStarted 1 (addNode 1 server_description unconfigured).1.

Definition cluster : Network :=
  (addNode 2 render_description with_server).1.

(** The cluster with a second render node, [3], and a transport on which
    node [2] does not answer. *)
Definition larger_cluster : Network :=
  (addNode 3 render_description cluster).1.

Definition second_is_down (node : Node) : bool := negb (Pos.eqb node 2).

(** *** [operator <<]

    What is inserted into the stream, item by item.  How a pointer, a number
    or a description is formatted is left to the stream. *)
Inductive Token : Type :=
| TString (text : string)
| TId (id : N)
| TAddress (a : positive)
| TSize (n : nat)
| TNode (node : Node)
| TDescription (d : ConnectionDescription)
| TEndl.

#[export] Instance Token_eq_dec : EqDecision Token.
Proof. solve_decision. Defined.

(** The conditional chains of [operator <<]. *)
Definition protocol_name (p : NetworkProtocol) : string :=
  if decide (p = PROTO_TCPIP) then "TCP/IP"
  else if decide (p = PROTO_PIPE) then "pipe()"
  else if decide (p = PROTO_MPI) then "MPI "
  else "unknown".

Definition state_name (st : NodeState) : string :=
  if decide (st = NODE_STOPPED) then "stopped"
  else if decide (st = NODE_INITIALIZED) then "initialized"
  else if decide (st = NODE_RUNNING) then "running"
  else "unknown state".

(** [os << "Network " << network->getID() << "(" << (void* )network
       << "): proto " << ... << network->_descriptions.size() << " node[s]"].
    [getID] belongs to the base class, whose header is not part of the
    sources: the identifier is an argument, as is the address of the
    network. *)
Definition print_header (id : N) (address : positive) (net : Network) : list Token :=
  [TString "Network "; TId id; TString "("; TAddress address;
   TString "): proto "; TString (protocol_name (_protocol net));
   TSize (size (_descriptions net)); TString " node[s]"].

(** The insertions of one iteration of the loop. *)
Definition print_entry (node : Node) (description : ConnectionDescription)
    (state : NodeState) : list Token :=
  [TEndl; TString "    "; TNode node; TString ": "; TDescription description;
   TString " "; TString (state_name state); TEndl].

(** [network->_nodeStates[node]]: the subscript of a hash map on a map that
    is not [const] returns the value of the key and, when the key is
    missing, first enters it with the zero value of the enumeration,
    [NODE_STOPPED]. *)
Definition subscript (node : Node) (states : gmap positive NodeState)
    : NodeState * gmap positive NodeState :=
  match states !! node with
  | Some st => (st, states)
  | None => (NODE_STOPPED, <[node := NODE_STOPPED]> states)
  end.

(** The body of the loop over [_descriptions]: the stream so far and the
    state map, after one more entry. *)
Definition print_step (acc : list Token * gmap positive NodeState)
    (entry : Node * ConnectionDescription) : list Token * gmap positive NodeState :=
  let '(node, description) := entry in
  let '(state, states) := subscript node acc.2 in
  (acc.1 ++ print_entry node description state, states).

(** [operator << ( std::ostream& os, Network* network )]: what is written,
    and the state map of the network afterwards. *)
Definition print (id : N) (address : positive) (net : Network)
    : list Token * gmap positive NodeState :=
  foldl print_step (print_header id address net, _nodeStates net)
        (map_to_list (_descriptions net)).

(** One block of [print_entry] per entry of a list of descriptions, with the
    state a map gives for the node, [NODE_STOPPED] when it gives none. *)
Fixpoint listing (states : gmap positive NodeState)
    (entries : list (Node * ConnectionDescription)) : list Token :=
  match entries with
  | [] => []
  | (node, description) :: rest =>
      print_entry node description (default NODE_STOPPED (states !! node)) ++
      listing states rest
  end.

End Network.

(** ** The eqPly client *)

Module EqPly.

(** The calls [main] of [src/examples/eqPly/main.cpp] makes, in program
    order.  Destructors of locals that run at a [return] are not listed. *)
Inductive Call : Type :=
| ParseArguments
| OpenLogFile (name : string)
| SetLogOutput
| EqInit
| LogError (text : string)
| NewClient
| InitLocal
| EqExit
| ClientRun
| ExitLocal
| ReleaseClient
| CloseLogFile
| DeleteLogFile.

#[export] Instance Call_eq_dec : EqDecision Call.
Proof. solve_decision. Defined.

(** What the functions [main] calls answer: the log file name of the parsed
    arguments, the results of [eq::init] and of [initLocal], and the value of
    [run]. *)
Record Answers : Type := mkAnswers {
  logFilename : string;
  init_ok : bool;
  initLocal_ok : bool;
  run_result : Z
}.

Definition calls (c : Call) (done : list Call) : nat :=
  length (filter (λ c', c' = c) done).

(** Every call of [b] in a list of calls comes after a call of [a]; [seen]
    tells whether [a] was called before the list begins. *)
Fixpoint only_after (a b : Call) (seen : bool) (done : list Call) : bool :=
  match done with
  | [] => true
  | c :: rest =>
      (if decide (c = b) then seen else true) &&
      only_after a b (seen || bool_decide (c = a)) rest
  end.

Section Main.

(** [EXIT_FAILURE] of [stdlib.h]. *)
Variable EXIT_FAILURE : Z.

(** Steps 1 and 2: the arguments are parsed; the log goes to a file when a
    name was given.  The result is the [logFile] pointer. *)
Definition redirect_log (a : Answers) : option string * list Call :=
  if decide (logFilename a = "") then (None, [ParseArguments])
  else (Some (logFilename a),
        [ParseArguments; OpenLogFile (logFilename a); SetLogOutput]).

(** [if( logFile ) logFile->close(); delete logFile;] where deleting a null
    pointer does nothing. *)
Definition close_log (logFile : option string) : list Call :=
  match logFile with
  | Some _ => [CloseLogFile; DeleteLogFile]
  | None => []
  end.

(** [int main( const int argc, char** argv )] *)
Definition main (a : Answers) : Z * list Call :=
  let '(logFile, done) := redirect_log a in
  if negb (init_ok a) then
    (EXIT_FAILURE, done ++ [EqInit; LogError "Equalizer init failed"])
  else if negb (initLocal_ok a) then
    (EXIT_FAILURE,
     done ++ [EqInit; NewClient; InitLocal; LogError "Can't init client"; EqExit])
  else
    (run_result a,
     done ++ [EqInit; NewClient; InitLocal; ClientRun; ExitLocal; ReleaseClient;
              EqExit] ++ close_log logFile).

End Main.

End EqPly.

(** * Properties of the blocking queue *)

Module MTQueueFacts.

Import MTQueue.

(** Unfolds a member function down to the state it builds. *)
Ltac exec :=
  cbv [pop pop_timeout tryPop front back push push_vector pushFront assign
       wait_while_empty bind ret pthread_mutex_lock pthread_mutex_unlock
       pthread_cond_signal pthread_cond_wait pthread_cond_timedwait
       timedwait_sleeps timedwait_fails
       queue_empty queue_front queue_back queue_pop_front queue_push_back
       queue_push_front queue_insert_end queue_assign emit set_queue
       _queue contention wakeups trace];
  cbn [interfere_all foldl length].

(** Brings a trace built event by event into the form [tr ++ events]. *)
Ltac flat := rewrite <- ?app_assoc; cbn [app].

(** ** Traces *)

Lemma guarded_app (held : list Obj) (tr1 tr2 : list Event) :
  guarded held (tr1 ++ tr2) = guarded held tr1 && guarded (owned held tr1) tr2.
Proof.
  revert held. induction tr1 as [|e tr1 IH]; intros held; [reflexivity|].
  destruct e; cbn [app guarded owned]; rewrite ?IH, ?andb_assoc; reflexivity.
Qed.

Lemma owned_app (held : list Obj) (tr1 tr2 : list Event) :
  owned held (tr1 ++ tr2) = owned (owned held tr1) tr2.
Proof.
  revert held. induction tr1 as [|e tr1 IH]; intros held; [reflexivity|].
  destruct e; cbn [app owned]; apply IH.
Qed.

Lemma waits_guarded (k : nat) :
  guarded [This] (waits k) = true ∧ owned [This] (waits k) = [This].
Proof. induction k as [|k [IH1 IH2]]; split; cbn; auto. Qed.

Section Facts.

Context {T : Type} {T_zero : ZeroInit T}.

Implicit Types (q : list T) (s : St (T:=T)) (x v : T).

(** ** The calls that never wait *)

Lemma push_run x q c w tr :
  push x (mkSt q c w tr) =
  Ret tt (mkSt (interfere_all q c ++ [x]) [] w
              (tr ++ [EvLock This; EvWrite This; EvSignal This; EvUnlock This])).
Proof. exec. flat. reflexivity. Qed.

Lemma pushFront_run x q c w tr :
  pushFront x (mkSt q c w tr) =
  Ret tt (mkSt (x :: interfere_all q c) [] w
              (tr ++ [EvLock This; EvWrite This; EvSignal This; EvUnlock This])).
Proof. exec. flat. reflexivity. Qed.

Lemma push_vector_run (elements : list T) q c w tr :
  push_vector elements (mkSt q c w tr) =
  Ret tt (mkSt (interfere_all q c ++ elements) [] w
              (tr ++ [EvLock This; EvWrite This; EvSignal This; EvUnlock This])).
Proof. exec. flat. reflexivity. Qed.

Lemma push_each_run (elements : list T) q w tr :
  ∃ tr', push_each elements (mkSt q [] w tr) =
         Ret tt (mkSt (q ++ elements) [] w (tr ++ tr')) ∧
         guarded [] tr' = true ∧ owned [] tr' = [] ∧
         writes This tr' = length elements.
Proof.
  revert q tr. induction elements as [|e es IH]; intros q tr.
  - exists []. cbn. rewrite !app_nil_r. auto.
  - cbn [push_each]. unfold bind at 1. rewrite push_run. cbn [interfere_all foldl].
    destruct (IH (q ++ [e]) (tr ++ [EvLock This; EvWrite This; EvSignal This; EvUnlock This]))
      as (tr' & Hrun & Hg & Ho & Hw).
    exists ([EvLock This; EvWrite This; EvSignal This; EvUnlock This] ++ tr').
    rewrite Hrun. rewrite <- !app_assoc. cbn [app].
    assert (Hcs : owned [] [EvLock This; EvWrite This; EvSignal This; EvUnlock This] = [])
      by reflexivity.
    repeat split.
    + change (guarded [] ([EvLock This; EvWrite This; EvSignal This; EvUnlock This] ++ tr') = true).
      rewrite guarded_app, Hcs, Hg. reflexivity.
    + change (owned [] ([EvLock This; EvWrite This; EvSignal This; EvUnlock This] ++ tr') = []).
      rewrite owned_app, Hcs. exact Ho.
    + unfold writes in *.
      change (length (filter (λ e, e = EvWrite This)
                ([EvLock This; EvWrite This; EvSignal This; EvUnlock This] ++ tr'))
              = S (length es)).
      rewrite filter_app, length_app, Hw. reflexivity.
Qed.

Lemma front_run_cons x q w tr :
  front (mkSt (x :: q) [] w tr) =
  Ret x (mkSt (x :: q) [] w
             (tr ++ [EvLock This; EvProbe This; EvRead This; EvUnlock This])).
Proof. exec. flat. reflexivity. Qed.

Lemma front_run_nil c w tr :
  interfere_all [] c = [] →
  front (mkSt [] c w tr) =
  Ret NONE (mkSt [] [] w (tr ++ [EvLock This; EvProbe This; EvUnlock This])).
Proof. intros Hc. exec. rewrite Hc. exec. flat. reflexivity. Qed.

Lemma back_run_snoc x q w tr :
  back (mkSt (q ++ [x]) [] w tr) =
  Ret x (mkSt (q ++ [x]) [] w
             (tr ++ [EvLock This; EvProbe This; EvRead This; EvUnlock This])).
Proof.
  destruct q as [|y q]; cbn [app]; exec.
  - change (last [x]) with (Some x). exec. flat. reflexivity.
  - change (y :: q ++ [x]) with ((y :: q) ++ [x]).
    rewrite last_snoc. exec. flat. reflexivity.
Qed.

Lemma back_run_nil w tr :
  back (mkSt [] [] w tr) =
  Ret NONE (mkSt [] [] w (tr ++ [EvLock This; EvProbe This; EvUnlock This])).
Proof. exec. flat. reflexivity. Qed.

Lemma tryPop_run_cons x q w tr :
  tryPop (mkSt (x :: q) [] w tr) =
  Ret x (mkSt q [] w
             (tr ++ [EvProbe This; EvLock This; EvProbe This; EvRead This;
                     EvWrite This; EvUnlock This])).
Proof. exec. flat. reflexivity. Qed.

Lemma tryPop_run_nil c w tr :
  tryPop (mkSt [] c w tr) = Ret NONE (mkSt [] c w (tr ++ [EvProbe This])).
Proof. exec. reflexivity. Qed.

Lemma tryPop_returns s :
  ∃ v s', tryPop s = Ret v s' ∧ wakeups s' = wakeups s.
Proof.
  destruct s as [q c w tr]. destruct q as [|x q].
  - rewrite tryPop_run_nil. eauto.
  - exec. destruct (interfere_all (x :: q) c) as [|y q']; exec; eauto.
Qed.

(** ** The loop of [pop] *)

Lemma after_nil q : after [] q = q.
Proof. reflexivity. Qed.

Lemma after_cons (r : list Action) rs q :
  after (r :: rs) q = after rs (interfere_all q r).
Proof. reflexivity. Qed.

(** With as much fuel as there are wake-ups the loop either leaves with a
    deque that holds an element, after [k] waits that all found it empty,
    or stays in the wait when the wake-ups are used up. *)
Lemma wait_loop_fuel (w : list (list Action)) :
  ∀ fuel q c tr, length w ≤ fuel →
  (∃ k, k ≤ length w ∧ after (take k w) q ≠ [] ∧
        (∀ j, j < k → after (take j w) q = []) ∧
        wait_loop fuel (mkSt q c w tr) =
        Ret tt (mkSt (after (take k w) q) c (drop k w)
                    (tr ++ waits k ++ [EvProbe This])))
  ∨ ((∀ j, j ≤ length w → after (take j w) q = []) ∧
     wait_loop fuel (mkSt q c w tr) =
     Suspended (mkSt [] c []
                    (tr ++ waits (length w) ++ [EvProbe This; EvWait This]))).
Proof.
  induction w as [|r rs IH]; intros fuel q c tr Hfuel.
  - destruct q as [|x q].
    + right. split.
      * intros j _. rewrite take_nil. reflexivity.
      * destruct fuel; cbn [wait_loop]; exec; flat; reflexivity.
    + left. exists 0. split; [lia|]. split; [discriminate|]. split; [lia|].
      destruct fuel; cbn [wait_loop]; exec; reflexivity.
  - destruct q as [|x q].
    + destruct fuel as [|fuel]; [cbn in Hfuel; lia|].
      assert (Hrs : length rs ≤ fuel) by (cbn in Hfuel; lia).
      cbn [wait_loop]. exec.
      destruct (IH fuel (interfere_all [] r) c
                   ((tr ++ [EvProbe This]) ++ [EvWait This]) Hrs)
        as [(k & Hk & Hne & Hbefore & Hrun)|[Hall Hrun]].
      * left. exists (S k). split; [cbn; lia|].
        cbn [take drop]. rewrite after_cons. split; [exact Hne|].
        split.
        { intros [|j] Hj; [reflexivity|].
          cbn [take]. rewrite after_cons. apply Hbefore. lia. }
        cbn [interfere_all] in Hrun. rewrite Hrun. cbn [waits]. flat. reflexivity.
      * right. split.
        { intros [|j] Hj; [reflexivity|].
          cbn [take]. rewrite after_cons. apply Hall. cbn in Hj. lia. }
        cbn [interfere_all] in Hrun. rewrite Hrun. cbn [waits length]. flat.
        reflexivity.
    + left. exists 0. split; [lia|]. split; [discriminate|]. split; [lia|].
      destruct fuel; cbn [wait_loop]; exec; reflexivity.
Qed.

(** [pop()] from the state it is called in. *)
Lemma pop_run q c w tr :
  (∃ k v q', k ≤ length w ∧
        after (take k w) (interfere_all q c) = v :: q' ∧
        (∀ j, j < k → after (take j w) (interfere_all q c) = []) ∧
        pop (mkSt q c w tr) =
        Ret v (mkSt q' [] (drop k w)
                   (tr ++ EvLock This :: waits k ++
                      [EvProbe This; EvRead This; EvWrite This; EvUnlock This])))
  ∨ ((∀ j, j ≤ length w → after (take j w) (interfere_all q c) = []) ∧
     pop (mkSt q c w tr) =
     Suspended (mkSt [] [] []
                    (tr ++ EvLock This :: waits (length w) ++
                       [EvProbe This; EvWait This]))).
Proof.
  destruct (wait_loop_fuel w (length w) (interfere_all q c) [] (tr ++ [EvLock This]))
    as [(k & Hk & Hne & Hbefore & Hrun)|[Hall Hrun]]; [lia| |].
  - destruct (after (take k w) (interfere_all q c)) as [|v q'] eqn:E; [done|].
    left. exists k, v, q'. do 3 (split; [done|]).
    exec. rewrite Hrun. exec. flat. reflexivity.
  - right. split; [exact Hall|].
    exec. rewrite Hrun. flat. reflexivity.
Qed.

Lemma pop_run_cons x q w tr :
  pop (mkSt (x :: q) [] w tr) =
  Ret x (mkSt q [] w
             (tr ++ [EvLock This; EvProbe This; EvRead This; EvWrite This;
                     EvUnlock This])).
Proof. destruct w; exec; cbn [wait_loop]; exec; flat; reflexivity. Qed.

Lemma pop_run_nil tr :
  pop (mkSt ([] : list T) [] [] tr) =
  Suspended (mkSt [] [] [] (tr ++ [EvLock This; EvProbe This; EvWait This])).
Proof. exec. cbn [wait_loop]. exec. flat. reflexivity. Qed.

(** ** Claims about the calls that never wait *)

(** C7: [tryPop()] always returns, and uses up no wake-up: it never waits on
    the condition.  On a queue with a front element that nobody else
    touches it removes and returns that element; on an empty queue it returns
    [NONE] and leaves the queue as it is. *)
Theorem tryPop_never_blocks :
  (∀ s : St (T:=T), ∃ v s', tryPop s = Ret v s' ∧ wakeups s' = wakeups s) ∧
  (∀ x q w tr,
     tryPop (mkSt (x :: q) [] w tr) =
     Ret x (mkSt q [] w
                (tr ++ [EvProbe This; EvLock This; EvProbe This; EvRead This;
                        EvWrite This; EvUnlock This]))) ∧
  (∀ c w tr,
     tryPop (mkSt ([] : list T) c w tr) =
     Ret NONE (mkSt [] c w (tr ++ [EvProbe This]))).
Proof.
  split; [exact tryPop_returns|].
  split; [exact tryPop_run_cons|exact tryPop_run_nil].
Qed.

(** C8: [push( vector )] appends the elements to the back in the order of
    the vector, inside one critical section with one change of the deque,
    and the queue it leaves holds what pushing the elements one by one with
    [push( element )] leaves. *)
Theorem push_vector_as_single_pushes (elements : list T) q w tr :
  push_vector elements (mkSt q [] w tr) =
  Ret tt (mkSt (q ++ elements) [] w
              (tr ++ [EvLock This; EvWrite This; EvSignal This; EvUnlock This])) ∧
  ∃ tr', push_each elements (mkSt q [] w tr) =
         Ret tt (mkSt (q ++ elements) [] w (tr ++ tr')).
Proof.
  split; [apply push_vector_run|].
  destruct (push_each_run elements q w tr) as (tr' & H & _). eauto.
Qed.

(** ** The timed pop *)


(** [pop( timeout )] when the timed wait fails: a look at the deque under
    the mutex. *)
Lemma pop_timeout_fails_run (timeout : N) (tb : timeb) q (c : list Action) w tr :
  ¬ valid_timespec (deadline timeout tb) →
  ∃ rest, pop_timeout timeout tb (mkSt q c w tr) =
          Ret (default NONE (head (interfere_all q c)))
              (mkSt (tail (interfere_all q c)) [] w
                    (tr ++ EvLock This :: EvTimedWait This :: rest)) ∧
          guarded [This] (EvTimedWait This :: rest) = true ∧
          owned [This] (EvTimedWait This :: rest) = [] ∧
          signals This rest = 0.
Proof.
  intros Hts. exec. rewrite decide_False by exact Hts. exec.
  destruct (interfere_all q c) as [|y q']; exec; flat; eauto.
Qed.

(** [pop( timeout )] when the timed wait sleeps. *)
Lemma pop_timeout_sleeps_run (timeout : N) (tb : timeb) q (c : list Action) w tr :
  valid_timespec (deadline timeout tb) →
  ∃ rest, pop_timeout timeout tb (mkSt q c w tr) =
          Ret (default NONE (head (at_deadline (mkSt q c w tr))))
              (mkSt (tail (at_deadline (mkSt q c w tr))) [] (tail w)
                    (tr ++ EvLock This :: EvTimedWait This :: rest)) ∧
          guarded [This] (EvTimedWait This :: rest) = true ∧
          owned [This] (EvTimedWait This :: rest) = [] ∧
          signals This rest = 0.
Proof.
  intros Hts. unfold at_deadline, at_lock. cbn [_queue contention wakeups].
  exec. rewrite decide_True by exact Hts.
  destruct w as [|r rs]; exec.
  - destruct (interfere_all q c) as [|y q']; exec; flat; eauto.
  - destruct (interfere_all (interfere_all q c) r) as [|y q']; exec; flat; eauto.
Qed.

(** C10, as the code has it: [NONE] is the zero value of [T].  When the
    front element of a queue nobody else touches is that value, [tryPop()]
    and [front()] return [NONE]; [back()] returns [NONE] when the last
    element is that value; on an empty queue the three return [NONE]. *)
Theorem NONE_is_the_zero_value :
  NONE = (zero_value : T) ∧
  (∀ q w tr, ∃ tr', tryPop (mkSt (NONE :: q) [] w tr) = Ret NONE (mkSt q [] w tr')) ∧
  (∀ q w tr, ∃ tr', front (mkSt (NONE :: q) [] w tr) =
                    Ret NONE (mkSt (NONE :: q) [] w tr')) ∧
  (∀ q w tr, ∃ tr', back (mkSt (q ++ [NONE]) [] w tr) =
                    Ret NONE (mkSt (q ++ [NONE]) [] w tr')) ∧
  (∀ w tr, (∃ tr', tryPop (mkSt ([] : list T) [] w tr) = Ret NONE (mkSt [] [] w tr')) ∧
           (∃ tr', front (mkSt ([] : list T) [] w tr) = Ret NONE (mkSt [] [] w tr')) ∧
           (∃ tr', back (mkSt ([] : list T) [] w tr) = Ret NONE (mkSt [] [] w tr'))).
Proof.
  split; [reflexivity|].
  split; [intros; rewrite tryPop_run_cons; eauto|].
  split; [intros; rewrite front_run_cons; eauto|].
  split; [intros; rewrite back_run_snoc; eauto|].
  intros w tr. split; [rewrite tryPop_run_nil; eauto|].
  split; [rewrite front_run_nil by reflexivity; eauto|].
  rewrite back_run_nil; eauto.
Qed.

(** ** Claims about [pop()] and the order of service *)

(** C5: on a queue nobody else touches that holds an element, [pop()]
    removes and returns the front element and leaves the others in their
    order.  It never reads an empty deque; a value it returns was at the
    front of the deque at that moment, the rest is what it leaves.  It stays
    suspended exactly when the deque is empty at the call and after every
    wake-up, so it returns as soon as a wake-up finds an element. *)
Theorem pop_returns_the_front_or_waits :
  (∀ x q w tr,
     pop (mkSt (x :: q) [] w tr) =
     Ret x (mkSt q [] w
                (tr ++ [EvLock This; EvProbe This; EvRead This; EvWrite This;
                        EvUnlock This]))) ∧
  (∀ s : St (T:=T), pop s ≠ Undefined) ∧
  (∀ s v s', pop s = Ret v s' →
     ∃ k, k ≤ length (wakeups s) ∧
          after (take k (wakeups s)) (at_lock s) = v :: _queue s') ∧
  (∀ s, (∀ k, k ≤ length (wakeups s) →
              after (take k (wakeups s)) (at_lock s) = []) ↔
        ∃ s', pop s = Suspended s').
Proof.
  split; [exact pop_run_cons|].
  split.
  { intros [q c w tr].
    destruct (pop_run q c w tr) as [(k & v & q' & _ & _ & _ & ->)|[_ ->]]; done. }
  split.
  { intros [q c w tr] v s'.
    destruct (pop_run q c w tr) as [(k & v0 & q' & Hk & Hq & _ & ->)|[_ ->]];
      [|done].
    intros [= <- <-]. exists k. split; [exact Hk|exact Hq]. }
  intros [q c w tr]. unfold at_lock. cbn [_queue contention wakeups].
  destruct (pop_run q c w tr) as [(k & v & q' & Hk & Hq & _ & ->)|[Hall ->]].
  - split.
    + intros Hall. rewrite (Hall k Hk) in Hq. done.
    + intros [s' [=]].
  - split; [eauto|]. intros _. exact Hall.
Qed.

(** The deque holds the urgent entries, most recent first, followed by the
    entries pushed to the back, oldest first: the calls of one thread on a
    queue nobody else touches return what the order of the specification
    returns. *)
Lemma run_refines (ops : list Op) :
  ∀ q tr (p : FrontPriority), q = urgent p ++ fifo p →
  run ops (mkSt q [] [] tr) = fp_run ops p.
Proof.
  induction ops as [|[x|x|] ops IH]; intros q tr [us fs] Hq;
    cbn [urgent fifo] in Hq; [reflexivity| | |].
  - cbn [run fp_run]. rewrite push_run. cbn [interfere_all foldl].
    apply IH. cbn. rewrite Hq, app_assoc. reflexivity.
  - cbn [run fp_run]. rewrite pushFront_run. cbn [interfere_all foldl].
    apply IH. cbn. rewrite Hq. reflexivity.
  - cbn [run fp_run]. unfold fp_pop. cbn [urgent fifo].
    destruct us as [|u us].
    + destruct fs as [|f fs]; cbn [app] in Hq; subst q.
      * rewrite pop_run_nil. reflexivity.
      * rewrite pop_run_cons. f_equal. apply IH. reflexivity.
    + cbn [app] in Hq. subst q. rewrite pop_run_cons. f_equal.
      apply IH. reflexivity.
Qed.

(** ** The lock discipline *)

Lemma critical_section (tr : list Event) :
  guarded [This] tr = true → owned [This] tr = [This] →
  guarded [] (EvLock This :: tr ++ [EvUnlock This]) = true ∧
  owned [] (EvLock This :: tr ++ [EvUnlock This]) = [].
Proof.
  intros Hg Ho. cbn [guarded owned].
  rewrite guarded_app, owned_app, Hg, Ho. split; reflexivity.
Qed.

(** X15: every member function that reads elements of [_queue] or changes
    the deque does so with the mutex of its object held, and gives the mutex
    back; [pop()] still owns nothing while it is suspended in the wait. *)
Lemma members_hold_the_mutex q c w :
  (∃ v s', front (mkSt q c w []) = Ret v s' ∧
           guarded [] (trace s') = true ∧ owned [] (trace s') = []) ∧
  (∃ v s', back (mkSt q c w []) = Ret v s' ∧
           guarded [] (trace s') = true ∧ owned [] (trace s') = []) ∧
  (∃ v s', tryPop (mkSt q c w []) = Ret v s' ∧
           guarded [] (trace s') = true ∧ owned [] (trace s') = []) ∧
  (∀ timeout tb, ∃ v s', pop_timeout timeout tb (mkSt q c w []) = Ret v s' ∧
           guarded [] (trace s') = true ∧ owned [] (trace s') = []) ∧
  (∀ x, ∃ s', push x (mkSt q c w []) = Ret tt s' ∧
           guarded [] (trace s') = true ∧ owned [] (trace s') = []) ∧
  (∀ x, ∃ s', pushFront x (mkSt q c w []) = Ret tt s' ∧
           guarded [] (trace s') = true ∧ owned [] (trace s') = []) ∧
  (∀ xs, ∃ s', push_vector xs (mkSt q c w []) = Ret tt s' ∧
           guarded [] (trace s') = true ∧ owned [] (trace s') = []) ∧
  ((∃ v s', pop (mkSt q c w []) = Ret v s' ∧
            guarded [] (trace s') = true ∧ owned [] (trace s') = []) ∨
   (∃ s', pop (mkSt q c w []) = Suspended s' ∧ guarded [] (trace s') = true)).
Proof.
  split.
  { exec. destruct (interfere_all q c); exec; eauto. }
  split.
  { exec. destruct (interfere_all q c) as [|y q'] eqn:E; exec; [eauto|].
    destruct (last (y :: q')) as [z|] eqn:El; [exec; eauto|].
    apply last_None in El. done. }
  split.
  { destruct q as [|x q]; exec; [eauto|].
    destruct (interfere_all (x :: q) c); exec; eauto. }
  split.
  { intros timeout tb.
    destruct (decide (valid_timespec (deadline timeout tb))) as [Hts|Hts].
    - destruct (pop_timeout_sleeps_run timeout tb q c w [] Hts)
        as (rest & -> & Hg & Ho & _).
      do 2 eexists. split; [reflexivity|]. cbn [trace app guarded owned].
      split; [exact Hg|exact Ho].
    - destruct (pop_timeout_fails_run timeout tb q c w [] Hts)
        as (rest & -> & Hg & Ho & _).
      do 2 eexists. split; [reflexivity|]. cbn [trace app guarded owned].
      split; [exact Hg|exact Ho]. }
  split; [intros x; rewrite push_run; eauto|].
  split; [intros x; rewrite pushFront_run; eauto|].
  split; [intros xs; rewrite push_vector_run; eauto|].
  destruct (pop_run q c w []) as [(k & v & q' & _ & _ & _ & ->)|[_ ->]].
  - left. do 2 eexists. split; [reflexivity|]. cbn [trace app].
    destruct (waits_guarded k) as [Hg Ho].
    change [EvProbe This; EvRead This; EvWrite This; EvUnlock This]
      with ([EvProbe This; EvRead This; EvWrite This] ++ [EvUnlock This]).
    rewrite app_assoc. apply critical_section.
    + rewrite guarded_app, Hg, Ho. reflexivity.
    + rewrite owned_app, Ho. reflexivity.
  - right. eexists. split; [reflexivity|]. cbn [trace app guarded].
    destruct (waits_guarded (length w)) as [Hg Ho].
    rewrite guarded_app, Hg, Ho. reflexivity.
Qed.

(** C9, what the code does: [operator =] takes the mutex of [*this] only and
    the copy constructor takes none, so both read the elements of
    [from._queue] while the mutex of [from] is not held; neither ever locks
    it. *)
Theorem copy_reads_source_without_its_mutex (from : list T) q c w :
  (∃ s', assign from (mkSt q c w []) = Ret tt s' ∧
         _queue s' = from ∧
         EvRead From ∈ trace s' ∧ (EvLock From ∉ trace s') ∧
         guarded [] (trace s') = false) ∧
  fst (MTQueue_copy from) = from ∧
  EvRead From ∈ snd (MTQueue_copy from) ∧
  (EvLock From ∉ snd (MTQueue_copy from)) ∧
  guarded [] (snd (MTQueue_copy from)) = false.
Proof.
  split.
  - eexists. split; [exec; reflexivity|]. cbn.
    split; [reflexivity|]. split; [set_solver|]. split; [|reflexivity].
    rewrite !not_elem_of_cons. repeat split; try discriminate. set_solver.
  - cbn. split; [reflexivity|]. split; [set_solver|]. split; [|reflexivity].
    rewrite !not_elem_of_cons. repeat split; try discriminate. set_solver.
Qed.

End Facts.

(** C1: the pops of any sequence of [push], [pushFront] and [pop] calls on
    a new queue return what the order of the specification returns: urgent
    entries first, the most recent first, then the pushed entries, oldest
    first.  After [push(1)], [push(2)], [push(3)], [pushFront(9)], three
    pops return 9, 1 and 2. *)
Theorem pop_order_is_front_priority :
  (∀ (T : Type) (ops : list (Op (T:=T))),
     run ops fresh = fp_run ops (mkFrontPriority [] [])) ∧
  run [OpPush 1%Z; OpPush 2%Z; OpPush 3%Z; OpPushFront 9%Z; OpPop; OpPop; OpPop]
      fresh = [9%Z; 1%Z; 2%Z].
Proof.
  split.
  - intros T ops. apply run_refines. reflexivity.
  - reflexivity.
Qed.

(** The witness of C5: a consumer on an empty queue, woken once for nothing
    and then by a push of [5]. *)
Lemma pop_returns_the_front_or_waits_witness :
  ∃ k, k ≤ 2 ∧ after (take k [[]; [ActPush 5%Z]]) [] = [5%Z].
Proof.
  destruct (@pop_returns_the_front_or_waits Z) as (_ & _ & H & _).
  apply (H (mkSt [] [] [[]; [ActPush 5%Z]] []) 5%Z
           (mkSt [] [] []
                 [EvLock This; EvProbe This; EvWait This; EvProbe This;
                  EvWait This; EvProbe This; EvRead This; EvWrite This;
                  EvUnlock This])).
  reflexivity.
Defined.

(** C6, what the code does: with the clock at 1700000000 s and 250 ms and a
    time-out of one second, the nanoseconds of the deadline are below zero
    and the timed wait fails at once.  Called on an empty queue to which
    another thread pushes [5] within the second, [pop( timeout )] returns
    [NONE] without having waited; the push is still to come. *)
Theorem pop_timeout_returns_before_the_deadline :
  (tv_nsec (deadline 1000 (mkTimeb 1700000000 250)) < 0)%Z ∧
  pop_timeout 1000 (mkTimeb 1700000000 250) (mkSt [] [] [[ActPush 5%Z]] []) =
  Ret NONE (mkSt [] [] [[ActPush 5%Z]]
                 [EvLock This; EvTimedWait This; EvProbe This; EvUnlock This]).
Proof. split; [reflexivity|]. vm_compute. reflexivity. Qed.

(** C10 as stated fails for [back()]: the front element of [[0; 5]] is the
    zero value, and [back()] returns [5]. *)
Lemma back_of_zero_front_is_not_NONE :
  head (_queue (mkSt [0%Z; 5%Z] [] [] [])) = Some NONE ∧
  back (mkSt [0%Z; 5%Z] [] [] []) =
  Ret 5%Z (mkSt [0%Z; 5%Z] [] [] [EvLock This; EvProbe This; EvRead This; EvUnlock This]) ∧
  5%Z ≠ NONE.
Proof. split; [reflexivity|]. split; [reflexivity|]. discriminate. Qed.

End MTQueueFacts.

(** * Properties of the network controller *)

Module NetworkFacts.

Import Network.

(** ** Registration *)

Lemma addNode_known (net : Network) (node : Node) (known : ConnectionDescription) :
  _descriptions net !! node = Some known →
  addNode node known net = (net, []).
Proof. intros H. unfold addNode. rewrite H. rewrite decide_True; done. Qed.

Lemma addNode_conflict (net : Network) (node : Node)
    (known other : ConnectionDescription) :
  _descriptions net !! node = Some known → other ≠ known →
  addNode node other net = (net, [ConflictingDescription node]).
Proof. intros H Hne. unfold addNode. rewrite H. rewrite decide_False; done. Qed.

Lemma addNode_table (net : Network) (node : Node) (d : ConnectionDescription) :
  _cmdHandler (addNode node d net).1 = _cmdHandler net.
Proof.
  unfold addNode. destruct (_descriptions net !! node); [|reflexivity].
  case_decide; reflexivity.
Qed.

(** C3: for a node registered with a description, [addNode] with that
    description leaves the controller, and so both maps, as they are;
    [addNode] with another description is reported and leaves the
    controller as it is, the first description stays.  The same holds for an
    add-node command, called directly or dispatched by [handlePacket]. *)
Theorem addNode_keeps_the_registered_description
    (net : Network) (node : Node) (known : ConnectionDescription) :
  _descriptions net !! node = Some known →
  addNode node known net = (net, []) ∧
  (∀ other, other ≠ known →
     addNode node other net = (net, [ConflictingDescription node]) ∧
     _descriptions (addNode node other net).1 !! node = Some known) ∧
  (∀ packet, nodeID packet = node →
     _cmdNetworkAddNode packet net =
     (net, if decide (connectionDescription packet = known) then []
           else [ConflictingDescription node])) ∧
  (∀ CMD_NETWORK_ALL packet,
     nodeID packet = node →
     (0 ≤ command packet < Z.of_nat CMD_NETWORK_ALL)%Z →
     array_at (_cmdHandler net) (command packet) = Some (Some CmdNetworkAddNode) →
     handlePacket CMD_NETWORK_ALL packet net =
     Completed net (if decide (connectionDescription packet = known) then []
                    else [ConflictingDescription node])).
Proof.
  intros Hknown.
  assert (Hcmd : ∀ packet, nodeID packet = node →
     _cmdNetworkAddNode packet net =
     (net, if decide (connectionDescription packet = known) then []
           else [ConflictingDescription node])).
  { intros packet <-. unfold _cmdNetworkAddNode. case_decide as Hd.
    - rewrite Hd. by apply addNode_known.
    - by apply addNode_conflict with known. }
  split; [by apply addNode_known|].
  split.
  { intros other Hne. rewrite (addNode_conflict net node known other) by done.
    split; [reflexivity|exact Hknown]. }
  split; [exact Hcmd|].
  intros CMD packet Hnode Hrange Hslot. unfold handlePacket.
  rewrite decide_True by done. rewrite Hslot. cbn [invoke].
  rewrite (Hcmd packet Hnode). reflexivity.
Qed.

(** ** Dispatch *)

Lemma array_at_in_range {A} (table : list A) (i : Z) :
  (0 ≤ i < Z.of_nat (length table))%Z → is_Some (array_at table i).
Proof.
  intros [H0 H1]. unfold array_at. rewrite decide_True by done.
  apply lookup_lt_is_Some. lia.
Qed.

(** C4: with a table of [CMD_NETWORK_ALL] slots, [handlePacket] never reads
    outside the table.  A command outside [[0, CMD_NETWORK_ALL)] and a
    command whose slot is empty are reported, the packet is dropped and the
    controller is left as it was; in every case the controller that remains
    still has its table and takes the next packet. *)
Theorem handlePacket_stays_inside_the_table
    (CMD_NETWORK_ALL : nat) (packet : NetworkPacket) (net : Network) :
  table_sized CMD_NETWORK_ALL net →
  handlePacket CMD_NETWORK_ALL packet net ≠ OutOfBounds ∧
  (¬ (0 ≤ command packet < Z.of_nat CMD_NETWORK_ALL)%Z →
   handlePacket CMD_NETWORK_ALL packet net =
   Completed net [CommandOutOfRange (command packet)]) ∧
  (array_at (_cmdHandler net) (command packet) = Some None →
   handlePacket CMD_NETWORK_ALL packet net =
   Completed net [CommandNotRegistered (command packet)]) ∧
  (∃ net' reported,
     handlePacket CMD_NETWORK_ALL packet net = Completed net' reported ∧
     table_sized CMD_NETWORK_ALL net' ∧
     ∀ next, handlePacket CMD_NETWORK_ALL next net' ≠ OutOfBounds).
Proof.
  unfold table_sized. intros Hsize.
  assert (Hsafe : ∀ net0 p, length (_cmdHandler net0) = CMD_NETWORK_ALL →
            handlePacket CMD_NETWORK_ALL p net0 ≠ OutOfBounds).
  { intros net0 p Hlen. unfold handlePacket. case_decide as Hr; [|done].
    destruct (array_at_in_range (_cmdHandler net0) (command p)) as [slot Hs];
      [rewrite Hlen; done|].
    rewrite Hs. destruct slot as [h|]; [|done].
    destruct (invoke h p net0). done. }
  split; [by apply Hsafe|].
  split.
  { intros Hout. unfold handlePacket. rewrite decide_False; done. }
  split.
  { intros Hslot. unfold handlePacket. rewrite Hslot.
    case_decide as Hr; [reflexivity|].
    exfalso. apply Hr. unfold array_at in Hslot. case_decide as H0; [|done].
    apply lookup_lt_Some in Hslot. lia. }
  unfold handlePacket. case_decide as Hr.
  - destruct (array_at_in_range (_cmdHandler net) (command packet)) as [slot Hs];
      [rewrite Hsize; done|].
    rewrite Hs. destruct slot as [h|].
    + destruct h. cbn [invoke]. unfold _cmdNetworkAddNode.
      pose proof (addNode_table net (nodeID packet) (connectionDescription packet))
        as Ht.
      destruct (addNode (nodeID packet) (connectionDescription packet) net)
        as [net' reported].
      cbn [fst] in Ht. exists net', reported. split; [reflexivity|].
      assert (length (_cmdHandler net') = CMD_NETWORK_ALL) by (rewrite Ht; done).
      split; [done|]. intros next. by apply Hsafe.
    + exists net, [CommandNotRegistered (command packet)].
      split; [reflexivity|]. split; [done|]. intros next. by apply Hsafe.
  - exists net, [CommandOutOfRange (command packet)].
    split; [reflexivity|]. split; [done|]. intros next. by apply Hsafe.
Qed.

(** ** Starting the nodes *)

Section Start.

Variable handshake : Node → bool.

Lemma stopped_not_running (st : NodeState) : stopped st ≠ NODE_RUNNING.
Proof. unfold stopped. case_decide; [discriminate|done]. Qed.

Lemma stop_lookup (net : Network) (node : Node) :
  _nodeStates (stop net) !! node = stopped <$> _nodeStates net !! node.
Proof. unfold stop. cbn [_nodeStates]. apply lookup_fmap. Qed.

(** The network after [startNode] has succeeded for the peers of [begun],
    one after the other. *)
Lemma started_lookup (begun : list Node) :
  ∀ net node,
  _nodeStates (foldl (λ net n, set_nodeState n NODE_RUNNING net) net begun) !! node =
  if decide (node ∈ begun) then Some NODE_RUNNING else _nodeStates net !! node.
Proof.
  induction begun as [|n begun IH]; intros net node; cbn [foldl].
  - rewrite decide_False by apply not_elem_of_nil. reflexivity.
  - rewrite IH. cbn [set_nodeState _nodeStates].
    destruct (decide (node ∈ begun)) as [Hin|Hin].
    + rewrite decide_True by (by apply list_elem_of_further). reflexivity.
    + destruct (decide (node = n)) as [->|Hne].
      * rewrite decide_True by apply list_elem_of_here. apply lookup_insert_eq.
      * rewrite decide_False by (by apply not_elem_of_cons).
        by apply lookup_insert_ne.
Qed.

Lemma started_descriptions (begun : list Node) :
  ∀ net,
  _descriptions (foldl (λ net n, set_nodeState n NODE_RUNNING net) net begun) =
  _descriptions net.
Proof. induction begun as [|n begun IH]; intros net; cbn [foldl]; [done|]. by rewrite IH. Qed.

(** When a peer of [todo] fails, the loop starts the peers before the first
    such peer ([begun]) and then stops the network. *)
Lemma start_nodes_failure (todo : list Node) :
  ∀ net,
  (∃ bad, bad ∈ todo ∧ handshake bad = false) →
  ∃ begun bad rest,
    todo = begun ++ bad :: rest ∧
    (∀ n, n ∈ begun → handshake n = true) ∧ handshake bad = false ∧
    start_nodes handshake todo net =
    (false, stop (foldl (λ net n, set_nodeState n NODE_RUNNING net) net begun)).
Proof.
  induction todo as [|n todo IH]; intros net (bad & Hin & Hbad).
  - by apply elem_of_nil in Hin.
  - cbn [start_nodes]. unfold startNode.
    destruct (handshake n) eqn:Hn.
    + assert (Hrest : ∃ bad, bad ∈ todo ∧ handshake bad = false).
      { exists bad. split; [|done]. apply elem_of_cons in Hin as [->|]; [|done].
        congruence. }
      destruct (IH (set_nodeState n NODE_RUNNING net) Hrest)
        as (begun & bad' & rest & -> & Hok & Hbad' & Hrun).
      exists (n :: begun), bad', rest.
      split; [reflexivity|]. split.
      { intros m Hm. apply elem_of_cons in Hm as [->|]; auto. }
      split; [exact Hbad'|]. exact Hrun.
    + exists [], n, todo. split; [reflexivity|].
      split; [intros m Hm; by apply elem_of_nil in Hm|].
      split; [exact Hn|reflexivity].
Qed.

Lemma elem_of_pending (net : Network) (node : Node) :
  node ∈ pending net ↔
  ∃ st, _nodeStates net !! node = Some st ∧ st ≠ NODE_RUNNING.
Proof.
  unfold pending. rewrite list_elem_of_fmap. split.
  - intros ([n st] & -> & Hin). apply elem_of_map_to_list in Hin.
    apply map_lookup_filter_Some in Hin as [H1 H2]. eauto.
  - intros (st & H1 & H2). exists (node, st). split; [reflexivity|].
    apply elem_of_map_to_list. apply map_lookup_filter_Some. done.
Qed.

(** C2: when a registered peer that is not yet [RUNNING] fails its
    handshake, [start()] returns failure, the controller ends [STOPPED], not
    [RUNNING], and no registered node is left [RUNNING].  The peers for
    which [startNode] had succeeded before the failure, those listed before
    the failing peer, are [STOPPED] again; the registered nodes and their
    descriptions are as they were. *)
Theorem start_failure_leaves_no_node_running (net : Network) :
  (∃ bad st, _nodeStates net !! bad = Some st ∧ st ≠ NODE_RUNNING ∧
             handshake bad = false) →
  (start handshake net).1 = false ∧
  _state (start handshake net).2 = STATE_STOPPED ∧
  _state (start handshake net).2 ≠ STATE_RUNNING ∧
  (∀ node, _nodeStates (start handshake net).2 !! node ≠ Some NODE_RUNNING) ∧
  (∃ begun bad rest,
     pending net = begun ++ bad :: rest ∧
     (∀ n, n ∈ begun → handshake n = true) ∧ handshake bad = false ∧
     ∀ n, n ∈ begun →
          _nodeStates (start handshake net).2 !! n = Some NODE_STOPPED) ∧
  _descriptions (start handshake net).2 = _descriptions net ∧
  (∀ node, is_Some (_nodeStates (start handshake net).2 !! node) ↔
           is_Some (_nodeStates net !! node)).
Proof.
  intros (bad & st & Hst & Hne & Hbad).
  assert (Hpend : ∃ b, b ∈ pending net ∧ handshake b = false).
  { exists bad. split; [|done]. apply elem_of_pending. eauto. }
  unfold start.
  destruct (start_nodes_failure (pending net) (set_state STATE_STARTING net) Hpend)
    as (begun & bad' & rest & Hsplit & Hok & Hbad' & ->).
  cbn [fst snd]. split; [reflexivity|]. split; [reflexivity|].
  split; [discriminate|].
  assert (Hlook : ∀ node,
    _nodeStates (stop (foldl (λ net n, set_nodeState n NODE_RUNNING net)
                         (set_state STATE_STARTING net) begun)) !! node =
    stopped <$> (if decide (node ∈ begun) then Some NODE_RUNNING
                 else _nodeStates net !! node)).
  { intros node. rewrite stop_lookup, started_lookup. reflexivity. }
  split.
  { intros node. rewrite Hlook. case_decide; cbn.
    - discriminate.
    - destruct (_nodeStates net !! node) as [s0|]; cbn; [|discriminate].
      intros [= Hrun]. by apply stopped_not_running in Hrun. }
  split.
  { exists begun, bad', rest. split; [exact Hsplit|]. split; [exact Hok|].
    split; [exact Hbad'|]. intros n Hn. rewrite Hlook.
    rewrite decide_True by exact Hn. reflexivity. }
  split.
  { unfold stop. cbn [_descriptions]. rewrite started_descriptions. reflexivity. }
  intros node. rewrite Hlook. case_decide as Hin.
  - cbn. split; [intros _|eauto].
    assert (Hp : node ∈ pending net).
    { rewrite Hsplit. apply elem_of_app. by left. }
    apply elem_of_pending in Hp as (s0 & Hs0 & _). eauto.
  - rewrite fmap_is_Some. reflexivity.
Qed.

End Start.

(** The witness of C3: the server is registered in [cluster]. *)
Lemma addNode_keeps_the_registered_description_witness :
  addNode 1 server_description cluster = (cluster, []).
Proof.
  apply (proj1 (addNode_keeps_the_registered_description
                  cluster 1 server_description eq_refl)).
Defined.

(** The witness of C4: command [5] on the two-slot table of [cluster]. *)
Lemma handlePacket_stays_inside_the_table_witness :
  handlePacket 2 (mkNetworkPacket 5 1 server_description) cluster ≠ OutOfBounds.
Proof.
  apply (proj1 (handlePacket_stays_inside_the_table
                  2 (mkNetworkPacket 5 1 server_description) cluster eq_refl)).
Defined.

(** The witness of C2: in [larger_cluster] node [3] is started first, then
    node [2] does not answer. *)
Lemma start_failure_leaves_no_node_running_witness :
  (start second_is_down larger_cluster).1 = false ∧
  (∀ node, _nodeStates (start second_is_down larger_cluster).2 !! node ≠
           Some NODE_RUNNING).
Proof.
  destruct (start_failure_leaves_no_node_running second_is_down larger_cluster)
    as (Hfail & _ & _ & Hnone & _).
  - exists 2%positive, NODE_STOPPED.
    split; [reflexivity|]. split; [discriminate|reflexivity].
  - split; [exact Hfail|exact Hnone].
Defined.

End NetworkFacts.

(** * More about the blocking queue *)

Module MTQueueMore.

Import MTQueue MTQueueFacts.

Section More.

Context {T : Type} {T_zero : ZeroInit T}.

Implicit Types (q : list T) (s : St (T:=T)) (x v : T).

(** ** Looking without taking *)

(** X1: [front()] and [back()] return the first and the last element of the
    deque as it is when they get the mutex, [NONE] when it is empty; they
    leave the deque as it is and use up no wake-up. *)
Theorem front_and_back_only_look s :
  (∃ tr', front s =
          Ret (default NONE (head (at_lock s)))
              (mkSt (at_lock s) [] (wakeups s) tr')) ∧
  (∃ tr', back s =
          Ret (default NONE (last (at_lock s)))
              (mkSt (at_lock s) [] (wakeups s) tr')).
Proof.
  destruct s as [q c w tr]. unfold at_lock. cbn [_queue contention wakeups].
  split.
  - exec. destruct (interfere_all q c) as [|y q']; exec; eauto.
  - exec. destruct (interfere_all q c) as [|y q']; exec; [eauto|].
    destruct (last (y :: q')) as [z|] eqn:El; [exec; eauto|].
    apply last_None in El. done.
Qed.

(** X2: when [tryPop()] sees an element at its first, unlocked look, it
    takes the mutex and acts on the deque as the other threads left it: it
    removes and returns the element then at the front, or returns [NONE]
    when the deque was emptied in between. *)
Theorem tryPop_acts_on_the_deque_at_the_lock x q (c : list Action) w tr :
  ∃ tr', tryPop (mkSt (x :: q) c w tr) =
         Ret (default NONE (head (interfere_all (x :: q) c)))
             (mkSt (tail (interfere_all (x :: q) c)) [] w tr').
Proof. exec. destruct (interfere_all (x :: q) c) as [|y q']; exec; eauto. Qed.

(** ** Waiting *)

(** X3: when the deque holds an element at the call or after one of the
    wake-ups, [pop()] returns, and it does so at the first look that finds an
    element: the deque was empty at every earlier look, the value is the
    front of the deque at that look, the rest stays, and the later wake-ups
    are left for the next wait. *)
Theorem pop_returns_at_the_first_chance q (c : list Action) w tr (k : nat) :
  k ≤ length w →
  after (take k w) (interfere_all q c) ≠ [] →
  ∃ k0 v s',
    k0 ≤ k ∧
    pop (mkSt q c w tr) = Ret v s' ∧
    after (take k0 w) (interfere_all q c) = v :: _queue s' ∧
    (∀ j, j < k0 → after (take j w) (interfere_all q c) = []) ∧
    wakeups s' = drop k0 w ∧ contention s' = [] ∧
    trace s' = tr ++ EvLock This :: waits k0 ++
                 [EvProbe This; EvRead This; EvWrite This; EvUnlock This].
Proof.
  intros Hk Hne.
  destruct (pop_run q c w tr) as [(k0 & v & q' & Hk0 & Hq & Hbefore & ->)|[Hall _]].
  - do 3 eexists. split; [|split; [reflexivity|]];
      cbn [_queue wakeups contention trace]; [|done].
    destruct (decide (k0 ≤ k)) as [|Hgt]; [done|].
    exfalso. apply Hne. apply Hbefore. lia.
  - exfalso. apply Hne. by apply Hall.
Qed.


(** ** One call after the other *)

(** X5: when no other thread gets at the queue between the two calls, what
    [push] appends is what [back()] returns next, and what [pushFront]
    inserts is what [front()] returns next; the deque is the deque the
    first call found at its lock with the element at that end. *)
Theorem pushed_element_is_seen x s :
  (∃ tr', bind (push x) (λ _, back) s =
          Ret x (mkSt (at_lock s ++ [x]) [] (wakeups s) tr')) ∧
  (∃ tr', bind (pushFront x) (λ _, front) s =
          Ret x (mkSt (x :: at_lock s) [] (wakeups s) tr')).
Proof.
  destruct s as [q c w tr]. unfold at_lock, bind.
  cbn [_queue contention wakeups]. split.
  - rewrite push_run, back_run_snoc. eauto.
  - rewrite pushFront_run, front_run_cons. eauto.
Qed.

(** X6: when no other thread gets at the queue between the two calls, a
    [pop()] right after a [pushFront] returns the element just inserted,
    without waiting, and leaves the deque as [pushFront] found it at its
    lock. *)
Theorem pushFront_then_pop_gives_it_back x s :
  ∃ tr', bind (pushFront x) (λ _, pop) s =
         Ret x (mkSt (at_lock s) [] (wakeups s) tr').
Proof.
  destruct s as [q c w tr]. unfold at_lock, bind.
  cbn [_queue contention wakeups].
  rewrite pushFront_run, pop_run_cons. eauto.
Qed.

Lemma assign_run (from : list T) q (c : list Action) w tr :
  assign from (mkSt q c w tr) =
  Ret tt (mkSt from [] w
              (tr ++ [EvLock This; EvRead From; EvWrite This; EvSignal This;
                      EvUnlock This])).
Proof. exec. flat. reflexivity. Qed.

Lemma pops_run q1 :
  ∀ q2 (w : list (list Action)) tr,
  ∃ tr', pops (length q1) (mkSt (q1 ++ q2) [] w tr) = Ret q1 (mkSt q2 [] w tr').
Proof.
  induction q1 as [|x q1 IH]; intros q2 w tr.
  - cbn. unfold ret. eauto.
  - cbn [length pops app]. unfold bind at 1. rewrite pop_run_cons.
    destruct (IH q2 w (tr ++ [EvLock This; EvProbe This; EvRead This;
                              EvWrite This; EvUnlock This])) as [tr' Hr].
    unfold bind at 1. rewrite Hr. unfold ret. eauto.
Qed.

(** X7: first in, first out.  On a queue nobody else touches, as many pops
    as there are elements at the front return these elements in their order
    and leave the others; after a [push( vector )] the pops return the old
    elements and then the vector; once everything is taken, one more [pop()]
    does not return. *)
Theorem pops_return_the_elements_in_order :
  (∀ q1 q2 (w : list (list Action)) tr,
     ∃ tr', pops (length q1) (mkSt (q1 ++ q2) [] w tr) =
            Ret q1 (mkSt q2 [] w tr')) ∧
  (∀ (xs : list T) s,
     ∃ tr', bind (push_vector xs) (λ _, pops (length (at_lock s ++ xs))) s =
            Ret (at_lock s ++ xs) (mkSt [] [] (wakeups s) tr')) ∧
  (∀ q tr,
     ∃ s', bind (pops (length q)) (λ _, pop) (mkSt q [] [] tr) = Suspended s').
Proof.
  split; [exact pops_run|]. split.
  - intros xs [q c w tr]. unfold at_lock. cbn [_queue contention wakeups].
    unfold bind. rewrite push_vector_run.
    destruct (pops_run (interfere_all q c ++ xs) [] w
                (tr ++ [EvLock This; EvWrite This; EvSignal This; EvUnlock This]))
      as [tr' Hr].
    rewrite app_nil_r in Hr. rewrite Hr. eauto.
  - intros q tr. destruct (pops_run q [] [] tr) as [tr' Hr].
    rewrite app_nil_r in Hr. unfold bind. rewrite Hr, pop_run_nil. eauto.
Qed.

(** X8: the assignment replaces the deque: whatever the queue held and
    whatever the other threads did to it before the lock is gone.  When no
    other thread gets at the queue after the assignment, the pops that
    follow return the elements of the source in their order. *)
Theorem assign_replaces_the_contents (from : list T) s :
  (∃ tr', assign from s = Ret tt (mkSt from [] (wakeups s) tr')) ∧
  (∃ tr', bind (assign from) (λ _, pops (length from)) s =
          Ret from (mkSt [] [] (wakeups s) tr')).
Proof.
  destruct s as [q c w tr]. cbn [wakeups]. split.
  - rewrite assign_run. eauto.
  - unfold bind. rewrite assign_run.
    destruct (pops_run from [] w
                (tr ++ [EvLock This; EvRead From; EvWrite This; EvSignal This;
                        EvUnlock This])) as [tr' Hr].
    rewrite app_nil_r in Hr. rewrite Hr. eauto.
Qed.

(** ** Producers and the order of the deque *)

Lemma run_pops (n : nat) :
  ∀ q tr, run (replicate n OpPop) (mkSt q [] [] tr) = take n q.
Proof.
  induction n as [|n IH]; intros q tr; [reflexivity|].
  cbn [replicate run]. destruct q as [|x q].
  - rewrite pop_run_nil. reflexivity.
  - rewrite pop_run_cons. cbn [take]. f_equal. apply IH.
Qed.

Lemma run_producers (ops : list Op) (n : nat) :
  ∀ q tr, forallb is_producer ops = true →
  run (ops ++ replicate n OpPop) (mkSt q [] [] tr) =
  take n (reverse (fronts ops) ++ q ++ backs ops).
Proof.
  induction ops as [|[x|x|] ops IH]; intros q tr Hp.
  - cbn [app fronts backs omap reverse]. rewrite app_nil_r. apply run_pops.
  - cbn [app run]. rewrite push_run. cbn [interfere_all foldl].
    rewrite IH by exact Hp.
    change (fronts (OpPush x :: ops)) with (fronts ops).
    change (backs (OpPush x :: ops)) with (x :: backs ops).
    rewrite <- app_assoc. reflexivity.
  - cbn [app run]. rewrite pushFront_run. cbn [interfere_all foldl].
    rewrite IH by exact Hp.
    change (fronts (OpPushFront x :: ops)) with (x :: fronts ops).
    change (backs (OpPushFront x :: ops)) with (backs ops).
    rewrite reverse_cons, <- app_assoc. reflexivity.
  - discriminate Hp.
Qed.

(** X9: after any sequence of [push] and [pushFront] calls on a new queue,
    the pops return the [pushFront] arguments, last call first, and then
    the [push] arguments, first call first. *)
Theorem producers_then_pops (ops : list (Op (T:=T))) (n : nat) :
  forallb is_producer ops = true →
  run (ops ++ replicate n OpPop) fresh =
  take n (reverse (fronts ops) ++ backs ops).
Proof. intros Hp. unfold fresh, MTQueue_new. apply (run_producers ops n [] [] Hp). Qed.

(** ** Signals *)

Lemma signals_app (o : Obj) (tr1 tr2 : list Event) :
  signals o (tr1 ++ tr2) = signals o tr1 + signals o tr2.
Proof. unfold signals. rewrite filter_app, length_app. reflexivity. Qed.

Lemma signals_waits (k : nat) : signals This (waits k) = 0.
Proof. induction k as [|k IH]; [reflexivity|]. cbn [waits]. exact IH. Qed.

(** X10: every call that changes the deque by adding to it or replacing it
    signals the condition once, inside its critical section, whatever the
    number of elements: a [push( vector )] wakes one waiter.  The calls that
    take or look never signal. *)
Theorem producers_signal_once q (c : list Action) w :
  (∀ x, ∃ s', push x (mkSt q c w []) = Ret tt s' ∧ signals This (trace s') = 1) ∧
  (∀ x, ∃ s', pushFront x (mkSt q c w []) = Ret tt s' ∧
              signals This (trace s') = 1) ∧
  (∀ xs, ∃ s', push_vector xs (mkSt q c w []) = Ret tt s' ∧
               signals This (trace s') = 1) ∧
  (∀ from, ∃ s', assign from (mkSt q c w []) = Ret tt s' ∧
                 signals This (trace s') = 1) ∧
  (∃ v s', front (mkSt q c w []) = Ret v s' ∧ signals This (trace s') = 0) ∧
  (∃ v s', back (mkSt q c w []) = Ret v s' ∧ signals This (trace s') = 0) ∧
  (∃ v s', tryPop (mkSt q c w []) = Ret v s' ∧ signals This (trace s') = 0) ∧
  (∀ timeout tb, ∃ v s', pop_timeout timeout tb (mkSt q c w []) = Ret v s' ∧
                         signals This (trace s') = 0) ∧
  ((∃ v s', pop (mkSt q c w []) = Ret v s' ∧ signals This (trace s') = 0) ∨
   (∃ s', pop (mkSt q c w []) = Suspended s' ∧ signals This (trace s') = 0)).
Proof.
  split; [intros x; rewrite push_run; eauto|].
  split; [intros x; rewrite pushFront_run; eauto|].
  split; [intros xs; rewrite push_vector_run; eauto|].
  split; [intros from; rewrite assign_run; eauto|].
  split.
  { exec. destruct (interfere_all q c); exec; eauto. }
  split.
  { exec. destruct (interfere_all q c) as [|y q'] eqn:E; exec; [eauto|].
    destruct (last (y :: q')) as [z|] eqn:El; [exec; eauto|].
    apply last_None in El. done. }
  split.
  { destruct q as [|x q]; exec; [eauto|].
    destruct (interfere_all (x :: q) c); exec; eauto. }
  split.
  { intros timeout tb.
    destruct (decide (valid_timespec (deadline timeout tb))) as [Hts|Hts].
    - destruct (pop_timeout_sleeps_run timeout tb q c w [] Hts)
        as (rest & -> & _ & _ & Hs).
      do 2 eexists. split; [reflexivity|]. cbn [trace app]. exact Hs.
    - destruct (pop_timeout_fails_run timeout tb q c w [] Hts)
        as (rest & -> & _ & _ & Hs).
      do 2 eexists. split; [reflexivity|]. cbn [trace app]. exact Hs. }
  destruct (pop_run q c w []) as [(k & v & q' & _ & _ & _ & ->)|[_ ->]].
  - left. do 2 eexists. split; [reflexivity|]. cbn [trace app].
    change (EvLock This :: waits k ++
              [EvProbe This; EvRead This; EvWrite This; EvUnlock This])
      with ([EvLock This] ++ waits k ++
              [EvProbe This; EvRead This; EvWrite This; EvUnlock This]).
    rewrite !signals_app, signals_waits. reflexivity.
  - right. eexists. split; [reflexivity|]. cbn [trace app].
    change (EvLock This :: waits (length w) ++ [EvProbe This; EvWait This])
      with ([EvLock This] ++ waits (length w) ++ [EvProbe This; EvWait This]).
    rewrite !signals_app, signals_waits. reflexivity.
Qed.

(** ** Where the values come from *)

Lemma interfere_supplied q (a : Action) y :
  y ∈ interfere q a → y ∈ q ∨ y ∈ action_elements a.
Proof.
  destruct a as [x|xs|x| |xs]; cbn [interfere action_elements];
    unfold push_back, insert_end, push_front, pop_front.
  - rewrite elem_of_app. tauto.
  - rewrite elem_of_app. tauto.
  - rewrite elem_of_cons, list_elem_of_singleton. tauto.
  - intros Hy. left. destruct q as [|z q]; [exact Hy|].
    by apply list_elem_of_further.
  - tauto.
Qed.

Lemma interfere_all_supplied (r : list Action) :
  ∀ q y, y ∈ interfere_all q r → y ∈ q ∨ y ∈ concat (action_elements <$> r).
Proof.
  induction r as [|a r IH]; intros q y Hy; [left; exact Hy|].
  cbn [interfere_all foldl] in Hy. apply IH in Hy as [Hy|Hy].
  - apply interfere_supplied in Hy as [Hy|Hy]; [by left|].
    right. cbn [fmap list_fmap concat]. apply elem_of_app. by left.
  - right. cbn [fmap list_fmap concat]. apply elem_of_app. by right.
Qed.

Lemma after_supplied (rs : list (list Action)) :
  ∀ q y, y ∈ after rs q →
         y ∈ q ∨ y ∈ concat (action_elements <$> concat rs).
Proof.
  induction rs as [|r rs IH]; intros q y Hy; [left; exact Hy|].
  rewrite after_cons in Hy. cbn [concat]. rewrite fmap_app, concat_app, elem_of_app.
  apply IH in Hy as [Hy|Hy]; [|tauto].
  apply interfere_all_supplied in Hy. tauto.
Qed.

Lemma wakeup_supplied q (c : list Action) w tr (k : nat) y :
  y ∈ after (take k w) (interfere_all q c) → y ∈ supplied (mkSt q c w tr).
Proof.
  intros Hy. unfold supplied. cbn [_queue contention wakeups].
  rewrite elem_of_app, fmap_app, concat_app, elem_of_app.
  apply after_supplied in Hy as [Hy|Hy].
  - apply interfere_all_supplied in Hy. tauto.
  - right. right. rewrite <- (take_drop k w).
    rewrite concat_app, fmap_app, concat_app, elem_of_app. by left.
Qed.

(** X14: a call that takes or looks never makes up a value.  What [pop()]
    returns was in the queue at the call or was brought by another thread
    during the call; the other calls return such a value or [NONE]. *)
Theorem consumers_return_what_was_put_in s :
  (∀ v s', pop s = Ret v s' → v ∈ supplied s) ∧
  (∀ v s', tryPop s = Ret v s' → v ∈ supplied s ∨ v = NONE) ∧
  (∀ timeout tb v s', pop_timeout timeout tb s = Ret v s' →
                      v ∈ supplied s ∨ v = NONE) ∧
  (∀ v s', front s = Ret v s' → v ∈ supplied s ∨ v = NONE) ∧
  (∀ v s', back s = Ret v s' → v ∈ supplied s ∨ v = NONE).
Proof.
  destruct s as [q c w tr].
  assert (Hlock : ∀ y, y ∈ interfere_all q c → y ∈ supplied (mkSt q c w tr)).
  { intros y Hy. by apply (wakeup_supplied q c w tr 0). }
  split.
  { intros v s'.
    destruct (pop_run q c w tr) as [(k & v0 & q' & _ & Hq & _ & ->)|[_ ->]];
      [|done].
    intros [= <- <-]. apply (wakeup_supplied q c w tr k). rewrite Hq.
    apply list_elem_of_here. }
  split.
  { intros v s'. destruct q as [|x q]; exec; [intros [= <- <-]; by right|].
    destruct (interfere_all (x :: q) c) as [|y q'] eqn:E; exec;
      intros [= <- <-]; [by right|].
    left. apply Hlock. apply list_elem_of_here. }
  split.
  { intros timeout tb v s'.
    destruct (decide (valid_timespec (deadline timeout tb))) as [Hts|Hts].
    - destruct (pop_timeout_sleeps_run timeout tb q c w tr Hts) as (rest & -> & _).
      intros [= <- <-]. unfold at_deadline, at_lock.
      cbn [_queue contention wakeups]. destruct w as [|r rs].
      + destruct (interfere_all q c) as [|y q'] eqn:E; [by right|].
        left. apply Hlock. apply list_elem_of_here.
      + destruct (interfere_all (interfere_all q c) r) as [|y q'] eqn:E;
          [by right|].
        left. apply (wakeup_supplied q c (r :: rs) tr 1).
        change (after (take 1 (r :: rs)) (interfere_all q c))
          with (interfere_all (interfere_all q c) r).
        rewrite E. apply list_elem_of_here.
    - destruct (pop_timeout_fails_run timeout tb q c w tr Hts) as (rest & -> & _).
      intros [= <- <-].
      destruct (interfere_all q c) as [|y q'] eqn:E; [by right|].
      left. apply Hlock. apply list_elem_of_here. }
  split.
  { intros v s'. exec.
    destruct (interfere_all q c) as [|y q'] eqn:E; exec;
      intros [= <- <-]; [by right|].
    left. apply Hlock. apply list_elem_of_here. }
  intros v s'. exec.
  destruct (interfere_all q c) as [|y q'] eqn:E; exec; [intros [= <- <-]; by right|].
  destruct (last (y :: q')) as [z|] eqn:El; exec; [|done].
  intros [= <- <-]. left. apply Hlock.
  apply last_Some in El as [l' ->]. apply elem_of_app. right.
  apply list_elem_of_here.
Qed.

End More.

(** The witness of X14: the value a push of another thread brings to a
    waiting consumer. *)
Lemma consumers_return_what_was_put_in_witness :
  5%Z ∈ supplied (mkSt [] [] [[]; [ActPush 5%Z]] []).
Proof.
  destruct (consumers_return_what_was_put_in
              (mkSt [] [] [[]; [ActPush 5%Z]] [])) as [H _].
  apply (H 5%Z
           (mkSt [] [] []
                 [EvLock This; EvProbe This; EvWait This; EvProbe This;
                  EvWait This; EvProbe This; EvRead This; EvWrite This;
                  EvUnlock This])).
  reflexivity.
Defined.

(** The witness of X3: a consumer on an empty queue, woken once for nothing
    and then by a push of [5]. *)
Lemma pop_returns_at_the_first_chance_witness :
  ∃ k0 v s',
    k0 ≤ 2 ∧
    pop (mkSt [] [] [[]; [ActPush 5%Z]] []) = Ret v s' ∧
    after (take k0 [[]; [ActPush 5%Z]]) (interfere_all [] []) = v :: _queue s' ∧
    (∀ j, j < k0 → after (take j [[]; [ActPush 5%Z]]) (interfere_all [] []) = []).
Proof.
  destruct (pop_returns_at_the_first_chance
              [] [] [[]; [ActPush 5%Z]] [] 2)
    as (k0 & v & s' & Hk & Hpop & Hq & Hbefore & _).
  - cbn. lia.
  - cbn. discriminate.
  - exists k0, v, s'. split; [exact Hk|]. split; [exact Hpop|].
    split; [exact Hq|exact Hbefore].
Defined.


(** The witness of X9: two pushes around two front pushes, then three
    pops. *)
Lemma producers_then_pops_witness :
  run ([OpPush 1%Z; OpPushFront 8%Z; OpPushFront 9%Z; OpPush 2%Z] ++
       replicate 3 OpPop) fresh =
  take 3 (reverse (fronts [OpPush 1%Z; OpPushFront 8%Z; OpPushFront 9%Z;
                           OpPush 2%Z]) ++
          backs [OpPush 1%Z; OpPushFront 8%Z; OpPushFront 9%Z; OpPush 2%Z]).
Proof.
  apply (producers_then_pops
           [OpPush 1%Z; OpPushFront 8%Z; OpPushFront 9%Z; OpPush 2%Z] 3).
  reflexivity.
Defined.

End MTQueueMore.

(** * The listing of a network *)

Module NetworkPrintFacts.

Import Network.

Lemma listing_app (states : gmap positive NodeState)
    (l1 l2 : list (Node * ConnectionDescription)) :
  listing states (l1 ++ l2) = listing states l1 ++ listing states l2.
Proof.
  induction l1 as [|[n d] l1 IH]; [reflexivity|].
  cbn [app listing]. rewrite IH, app_assoc. reflexivity.
Qed.

Lemma listing_length (states : gmap positive NodeState)
    (l : list (Node * ConnectionDescription)) :
  length (listing states l) = 8 * length l.
Proof.
  induction l as [|[n d] l IH]; [reflexivity|].
  cbn [listing]. rewrite length_app, IH. cbn [print_entry length]. lia.
Qed.

(** The states of other nodes do not show in a listing. *)
Lemma listing_insert (states : gmap positive NodeState) (node : Node)
    (st : NodeState) (l : list (Node * ConnectionDescription)) :
  node ∉ l.*1 →
  listing (<[node := st]> states) l = listing states l.
Proof.
  induction l as [|[n d] l IH]; intros Hn; [reflexivity|].
  cbn [fmap list_fmap fst] in Hn. apply not_elem_of_cons in Hn as [Hne Hn].
  cbn [listing]. rewrite lookup_insert_ne by done. rewrite IH by exact Hn.
  reflexivity.
Qed.

Lemma subscript_spec (node : Node) (states : gmap positive NodeState) :
  (subscript node states).1 = default NODE_STOPPED (states !! node) ∧
  ∀ n, (subscript node states).2 !! n =
       if decide (n = node) then Some (default NODE_STOPPED (states !! node))
       else states !! n.
Proof.
  unfold subscript. destruct (states !! node) as [st|] eqn:E; cbn [fst snd default].
  - split; [reflexivity|]. intros n. case_decide as Hn; [subst n; exact E|reflexivity].
  - split; [reflexivity|]. intros n. case_decide as Hn.
    + subst n. apply lookup_insert_eq.
    + apply lookup_insert_ne. done.
Qed.

Lemma subscript_listing (node : Node) (states : gmap positive NodeState)
    (l : list (Node * ConnectionDescription)) :
  node ∉ l.*1 →
  listing (subscript node states).2 l = listing states l.
Proof.
  intros Hn. unfold subscript. destruct (states !! node); cbn [snd]; [reflexivity|].
  by apply listing_insert.
Qed.

(** The loop, from any point on. *)
Lemma print_loop (l : list (Node * ConnectionDescription)) :
  ∀ out states, NoDup l.*1 →
  (foldl print_step (out, states) l).1 = out ++ listing states l ∧
  ∀ n, (foldl print_step (out, states) l).2 !! n =
       if decide (n ∈ l.*1) then Some (default NODE_STOPPED (states !! n))
       else states !! n.
Proof.
  induction l as [|[node d] l IH]; intros out states Hnd.
  - cbn. rewrite app_nil_r. split; [reflexivity|]. intros n.
    rewrite decide_False by apply not_elem_of_nil. reflexivity.
  - cbn [fmap list_fmap fst] in Hnd. apply NoDup_cons in Hnd as [Hnot Hnd].
    cbn [foldl].
    assert (Hstep : print_step (out, states) (node, d) =
                    (out ++ print_entry node d (subscript node states).1,
                     (subscript node states).2)).
    { unfold print_step. cbn [fst snd].
      destruct (subscript node states); reflexivity. }
    rewrite Hstep. clear Hstep.
    destruct (subscript_spec node states) as [Hst Hmap].
    pose proof (subscript_listing node states l Hnot) as Hl.
    destruct (subscript node states) as [st states'].
    cbn [fst snd] in Hst, Hmap, Hl |- *.
    destruct (IH (out ++ print_entry node d st) states' Hnd) as [Hout Hstates].
    split.
    + rewrite Hout, Hl. cbn [listing]. rewrite Hst, <- app_assoc. reflexivity.
    + intros n. rewrite Hstates.
      change (((node, d) :: l).*1) with (node :: l.*1).
      destruct (decide (n = node)) as [->|Hne].
      * rewrite (decide_False (P := node ∈ l.*1)) by exact Hnot.
        rewrite (decide_True (P := node ∈ node :: l.*1))
          by apply list_elem_of_here.
        rewrite Hmap. rewrite decide_True by done. reflexivity.
      * destruct (decide (n ∈ l.*1)) as [Hin|Hin].
        -- rewrite (decide_True (P := n ∈ node :: l.*1))
             by (by apply list_elem_of_further).
           rewrite Hmap. rewrite decide_False by done. reflexivity.
        -- rewrite (decide_False (P := n ∈ node :: l.*1))
             by (by apply not_elem_of_cons).
           rewrite Hmap. rewrite decide_False by done. reflexivity.
Qed.

Lemma print_output (id : N) (address : positive) (net : Network) :
  (print id address net).1 =
  print_header id address net ++
  listing (_nodeStates net) (map_to_list (_descriptions net)).
Proof.
  unfold print.
  apply (print_loop (map_to_list (_descriptions net))
           (print_header id address net) (_nodeStates net)
           (NoDup_fst_map_to_list _)).
Qed.

(** X11: the listing is the header followed by one block of eight items for
    every entry of [_descriptions], in the order of the iteration, so the
    number of blocks is the count the header shows. *)
Theorem print_lists_every_description (id : N) (address : positive) (net : Network) :
  (print id address net).1 =
  print_header id address net ++
  listing (_nodeStates net) (map_to_list (_descriptions net)) ∧
  length (print id address net).1 = 8 + 8 * size (_descriptions net) ∧
  print_header id address net !! 6 = Some (TSize (size (_descriptions net))).
Proof.
  split; [apply print_output|]. split; [|reflexivity].
  rewrite print_output, length_app, listing_length, length_map_to_list.
  reflexivity.
Qed.

(** X12: a node with a description and a state is listed with both, under
    the name of its state; the name is "unknown state" exactly for
    [NODE_LAUNCHED], which the chain of [operator <<] leaves out. *)
Theorem print_shows_the_node (id : N) (address : positive) (net : Network)
    (node : Node) (d : ConnectionDescription) (st : NodeState) :
  _descriptions net !! node = Some d →
  _nodeStates net !! node = Some st →
  (∃ before behind,
     (print id address net).1 =
     before ++
     [TEndl; TString "    "; TNode node; TString ": "; TDescription d;
      TString " "; TString (state_name st); TEndl] ++ behind) ∧
  (state_name st = "unknown state" ↔ st = NODE_LAUNCHED).
Proof.
  intros Hd Hst. split.
  - pose proof (print_output id address net) as Hout.
    apply elem_of_map_to_list in Hd.
    apply list_elem_of_split in Hd as (l1 & l2 & Hl).
    rewrite Hout, Hl, listing_app. cbn [listing]. rewrite Hst. cbn [default].
    exists (print_header id address net ++ listing (_nodeStates net) l1),
           (listing (_nodeStates net) l2).
    unfold print_entry. rewrite <- !app_assoc. reflexivity.
  - destruct st; vm_compute; split; intros H; done.
Qed.

(** X13: reading the states with the subscript enters [NODE_STOPPED] for
    every listed node that has no state and changes no other entry; when
    every node with a description has a state, the listing leaves the map as
    it is. *)
Theorem print_completes_the_states (id : N) (address : positive) (net : Network) :
  (∀ n, (print id address net).2 !! n =
        match _descriptions net !! n with
        | Some _ => Some (default NODE_STOPPED (_nodeStates net !! n))
        | None => _nodeStates net !! n
        end) ∧
  ((∀ n, is_Some (_descriptions net !! n) → is_Some (_nodeStates net !! n)) →
   (print id address net).2 = _nodeStates net).
Proof.
  assert (Hall : ∀ n, (print id address net).2 !! n =
        match _descriptions net !! n with
        | Some _ => Some (default NODE_STOPPED (_nodeStates net !! n))
        | None => _nodeStates net !! n
        end).
  { intros n. unfold print.
    destruct (print_loop (map_to_list (_descriptions net))
                (print_header id address net) (_nodeStates net)
                (NoDup_fst_map_to_list _)) as [_ Hstates].
    rewrite Hstates. destruct (_descriptions net !! n) as [d|] eqn:E.
    - rewrite decide_True; [reflexivity|].
      apply list_elem_of_fmap. exists (n, d). split; [reflexivity|].
      by apply elem_of_map_to_list.
    - rewrite decide_False; [reflexivity|].
      intros Hin. apply list_elem_of_fmap in Hin as ([n' d] & -> & Hin).
      apply elem_of_map_to_list in Hin. cbn in E. congruence. }
  split; [exact Hall|].
  intros Hinv. apply map_eq. intros n. rewrite Hall.
  destruct (_descriptions net !! n) as [d|] eqn:E; [|reflexivity].
  destruct (Hinv n) as [st Hst]; [rewrite E; eauto|].
  rewrite Hst. reflexivity.
Qed.

(** The witness of X12: the render node of [cluster]. *)
Lemma print_shows_the_node_witness :
  ∃ before behind,
    (print 7 1 cluster).1 =
    before ++
    [TEndl; TString "    "; TNode 2; TString ": "; TDescription render_description;
     TString " "; TString (state_name NODE_STOPPED); TEndl] ++ behind.
Proof.
  apply (proj1 (print_shows_the_node 7 1 cluster 2 render_description
                  NODE_STOPPED eq_refl eq_refl)).
Defined.

(** The witness of X13: both nodes of [cluster] have a state. *)
Lemma print_completes_the_states_witness :
  (print 7 1 cluster).2 = _nodeStates cluster.
Proof.
  apply (proj2 (print_completes_the_states 7 1 cluster)).
  intros n [d Hd].
  destruct (decide (n = 1%positive)) as [->|H1]; [eexists; reflexivity|].
  destruct (decide (n = 2%positive)) as [->|H2]; [eexists; reflexivity|].
  exfalso. unfold cluster, with_server in Hd. vm_compute in Hd.
  destruct n as [[]|[]|]; simpl in Hd; congruence.
Defined.

End NetworkPrintFacts.

(** * The eqPly client *)

Module EqPlyFacts.

Import EqPly.

(** X16: [main] returns the value of [run] when [eq::init] and [initLocal]
    both succeed and [EXIT_FAILURE] otherwise.  [initLocal] is called, once,
    exactly when [eq::init] succeeded, and after it; [run] is called, once,
    exactly when both succeeded, and after [initLocal]; [exitLocal] is
    called as often as [run], and after it; [eq::exit] comes only after
    [eq::init]. *)
Theorem main_exit_status (EXIT_FAILURE : Z) (a : Answers) :
  (main EXIT_FAILURE a).1 =
  (if init_ok a && initLocal_ok a then run_result a else EXIT_FAILURE) ∧
  calls InitLocal (main EXIT_FAILURE a).2 = (if init_ok a then 1 else 0) ∧
  calls ClientRun (main EXIT_FAILURE a).2 =
  (if init_ok a && initLocal_ok a then 1 else 0) ∧
  calls ExitLocal (main EXIT_FAILURE a).2 = calls ClientRun (main EXIT_FAILURE a).2 ∧
  only_after EqInit InitLocal false (main EXIT_FAILURE a).2 = true ∧
  only_after InitLocal ClientRun false (main EXIT_FAILURE a).2 = true ∧
  only_after ClientRun ExitLocal false (main EXIT_FAILURE a).2 = true ∧
  only_after EqInit EqExit false (main EXIT_FAILURE a).2 = true.
Proof.
  destruct a as [name i l r]. unfold main, redirect_log.
  cbn [logFilename init_ok initLocal_ok run_result].
  case_decide; destruct i, l; cbn [negb andb fst snd];
    repeat split; reflexivity.
Qed.

(** X17: [eq::init] is called once and [eq::exit] once on every path where
    [eq::init] succeeded, never where it failed.  The log is sent to a file
    exactly when a file name was given; that file is closed and deleted only
    on the path through [run]: when [eq::init] or [initLocal] fails, [main]
    returns with the log file still open. *)
Theorem main_pairs_init_and_exit (EXIT_FAILURE : Z) (a : Answers) :
  calls EqInit (main EXIT_FAILURE a).2 = 1 ∧
  calls EqExit (main EXIT_FAILURE a).2 = (if init_ok a then 1 else 0) ∧
  calls SetLogOutput (main EXIT_FAILURE a).2 =
  (if decide (logFilename a = "") then 0 else 1) ∧
  calls CloseLogFile (main EXIT_FAILURE a).2 =
  (if decide (logFilename a = "") then 0
   else if init_ok a && initLocal_ok a then 1 else 0) ∧
  calls DeleteLogFile (main EXIT_FAILURE a).2 =
  calls CloseLogFile (main EXIT_FAILURE a).2.
Proof.
  destruct a as [name i l r]. unfold main, redirect_log.
  cbn [logFilename init_ok initLocal_ok run_result].
  case_decide; destruct i, l; cbn [negb andb fst snd];
    repeat split; reflexivity.
Qed.

End EqPlyFacts.
